(** * beer: Bayesian parameters, Normal-Gamma densities and the generalized
      subspace model

    A shallow embedding of the parts of the [beer] package that its
    specification talks about:

    - [beer/models/parameters.py]: [BayesianParameter] and
      [ConjugateBayesianParameter] (statistics buffer, callback set,
      natural-gradient update);
    - [beer/dists/normalgamma.py]: [NormalGammaStdParams] and [NormalGamma]
      (standard / natural parameter conversion);
    - [beer/models/normalset.py]: [NormalSet.create];
    - [beer/models/gsm.py]: the three generalized subspace models (full,
      diagonal and scalar Hessian).
    - [beer/models/categorical.py]: the ordering of the components of the
      stick-breaking categorical and its statistics.

    Conventions.  Entries of torch tensors are elements of a real field [F]:
    arithmetic is exact, the rounding of IEEE floating point numbers is not
    part of the model.  One-dimensional tensors of [parameters.py] and
    [normalgamma.py] are sequences over [F], with Python's slicing written
    with [take], [drop] and [nth]; the sums and differences of
    [natural_grad_update], whose operands come from three different
    objects, check the lengths as torch does.  The batched tensors of
    [gsm.py] are matrices indexed by ordinals, so that a shape mismatch is
    excluded by typing.  Python exceptions are values of [exception], and a
    function that can raise returns a [result]. *)

From HB Require Import structures.
From mathcomp Require Import boot order algebra.
From Stdlib Require Import String.

Set Implicit Arguments.
Unset Strict Implicit.
Unset Printing Implicit Defensive.

Import GRing.Theory Num.Theory.
Local Open Scope ring_scope.

(** ** Python exceptions and fallible computations *)

Inductive exception : Type :=
| ValueError of string
| KeyError of string
| TypeError of string
| IndexError
| RuntimeError of string
| UnknownCovarianceType of string.

Inductive result (A : Type) : Type :=
| Ok of A
| Raise of exception.

Arguments Ok {A} _.
Arguments Raise {A} _.

Definition bind {A B : Type} (r : result A) (k : A -> result B) : result B :=
  match r with
  | Ok a => k a
  | Raise e => Raise e
  end.

Notation "x <- r ;; k" := (bind r (fun x => k))
  (at level 100, r at next level, right associativity).

Definition raises {A : Type} (r : result A) : bool :=
  if r is Raise _ then true else false.

(** ** One-dimensional tensors *)

Section Tensor1.

Variable F : realFieldType.

(** The literal [.5]. *)
Definition half : F := 2^-1.

(** The entries of two tensors of the same length, added or subtracted
    pair by pair: what [x + y] and [x - y] compute once the shapes are known
    to agree. *)
Definition tadd (x y : seq F) : seq F := [seq p.1 + p.2 | p <- zip x y].
Definition tsub (x y : seq F) : seq F := [seq p.1 - p.2 | p <- zip x y].

(** The shapes of the operands of [x + y] and [x - y], for one-dimensional
    tensors: the lengths are equal, or one operand has a single entry, which
    is repeated along the other one; anything else raises [RuntimeError]. *)
Definition broadcast (x y : seq F) : result (seq F * seq F) :=
  if size x == size y then Ok (x, y)
  else if size x == 1%N then Ok (nseq (size y) (head 0 x), y)
  else if size y == 1%N then Ok (x, nseq (size x) (head 0 y))
  else Raise (RuntimeError
                "The size of tensor a must match the size of tensor b").

(** [x + y] and [x - y] on tensors whose shapes are not known. *)
Definition torch_add (x y : seq F) : result (seq F) :=
  xy <- broadcast x y ;; Ok (tadd xy.1 xy.2).
Definition torch_sub (x y : seq F) : result (seq F) :=
  xy <- broadcast x y ;; Ok (tsub xy.1 xy.2).

(** A Python scalar (or a one-element tensor) broadcast over a tensor. *)
Definition tscale (c : F) (x : seq F) : seq F := [seq c * a | a <- x].
Definition tdiv (x : seq F) (c : F) : seq F := [seq a / c | a <- x].
Definition tneg (x : seq F) : seq F := [seq - a | a <- x].

(** [x ** 2]. *)
Definition tsquare (x : seq F) : seq F := [seq a ^+ 2 | a <- x].

(** [torch.zeros_like]. *)
Definition zeros_like (x : seq F) : seq F := nseq (size x) 0.

(** A tensor together with its autograd flag, as [store_stats] looks at it. *)
Record Tensor : Type := mkTensor {
  data : seq F;
  requires_grad : bool
}.

(** [t.clone().detach()]: the same values, cut from the computation graph. *)
Definition clone_detach (t : Tensor) : Tensor := mkTensor (data t) false.

End Tensor1.

(** ** The exponential-family interface ([beer/dists/basedist.py])

    [parameters.py] uses a distribution only through [natural_parameters]
    and [update_from_natural_parameters]: a family is a record of these two
    operations. *)

Record ExponentialFamily (F : realFieldType) : Type := mkExponentialFamily {
  dist : Type;
  natural_parameters : dist -> seq F;
  update_from_natural_parameters : dist -> seq F -> result dist
}.

(** ** [beer/models/parameters.py] *)

(** *** Classes with abstract methods

    [BayesianParameter] has the metaclass [abc.ABCMeta] and three methods
    under [abc.abstractmethod].  Python does not instantiate a class that
    has abstract methods left: the call of the class raises [TypeError]
    before [__init__] runs.  [ConjugateBayesianParameter] defines the
    three of them. *)
Definition instantiate (A : Type) (cls : string) (abstract : seq string)
    (init : result A) : result A :=
  if abstract is [::] then init
  else Raise (TypeError
                (String.append "Can't instantiate abstract class " cls)).

Definition BayesianParameter_abstractmethods : seq string :=
  [:: "sufficient_statistics"; "value"; "natural_form"]%string.

Definition ConjugateBayesianParameter_methods : seq string :=
  [:: "__init__"; "sufficient_statistics_dim"; "sufficient_statistics";
      "value"; "natural_form"; "natural_grad_update"]%string.

Definition ConjugateBayesianParameter_abstractmethods : seq string :=
  [seq m <- BayesianParameter_abstractmethods
   | ~~ has (String.eqb m) ConjugateBayesianParameter_methods].

Section Parameters.

Variable F : realFieldType.
Variable fam : ExponentialFamily F.

(** Callbacks are Python callables; a set tells them apart with [==] and
    [hash], which is what the equality of an [eqType] stands for. *)
Variable callback : eqType.

(** Python's [set]: a sequence without duplicates; [add] does nothing when
    the element is already there. *)
Definition set_add (cb : callback) (s : seq callback) : seq callback :=
  if cb \in s then s else cb :: s.

Record BayesianParameter : Type := mkBayesianParameter {
  prior : dist fam;
  posterior : dist fam;
  _stats : Tensor F;
  _callbacks : seq callback
}.

(** [BayesianParameter.__init__]. *)
Definition BayesianParameter_init (init_stats : Tensor F)
    (prior0 posterior0 : dist fam) : BayesianParameter :=
  {| prior := prior0;
     posterior := posterior0;
     _stats := clone_detach init_stats;
     _callbacks := [::] |}.

(** [ConjugateBayesianParameter.__init__]. *)
Definition ConjugateBayesianParameter_init (prior0 posterior0 : dist fam)
    : BayesianParameter :=
  let init_stats :=
    mkTensor (zeros_like (natural_parameters prior0)) false in
  BayesianParameter_init init_stats prior0 posterior0.

(** The call [ConjugateBayesianParameter(prior, posterior)]. *)
Definition ConjugateBayesianParameter_new (prior0 posterior0 : dist fam)
    : result BayesianParameter :=
  instantiate "ConjugateBayesianParameter"
    ConjugateBayesianParameter_abstractmethods
    (Ok (ConjugateBayesianParameter_init prior0 posterior0)).

Definition stats (p : BayesianParameter) : Tensor F := _stats p.

Definition register_callback (cb : callback) (p : BayesianParameter)
    : BayesianParameter :=
  {| prior := prior p;
     posterior := posterior p;
     _stats := _stats p;
     _callbacks := set_add cb (_callbacks p) |}.

Definition zero_stats (p : BayesianParameter) : BayesianParameter :=
  {| prior := prior p;
     posterior := posterior p;
     _stats := mkTensor (zeros_like (data (_stats p)))
                        (requires_grad (_stats p));
     _callbacks := _callbacks p |}.

Definition store_stats (acc_stats : Tensor F) (p : BayesianParameter)
    : BayesianParameter :=
  {| prior := prior p;
     posterior := posterior p;
     _stats := if requires_grad acc_stats then clone_detach acc_stats
               else acc_stats;
     _callbacks := _callbacks p |}.

Definition set_posterior (d : dist fam) (p : BayesianParameter)
    : BayesianParameter :=
  {| prior := prior p;
     posterior := d;
     _stats := _stats p;
     _callbacks := _callbacks p |}.

(** *** Callbacks and [dispatch]

    A callback takes no argument and reaches whatever it closed over: it is
    a transformer of the parameter it is registered on and of the rest of
    the program state, of type [world].

    Iterating over a Python set visits every element once, in an order the
    language does not fix: [iter_order] is that order.  The set iterator
    raises [RuntimeError] as soon as the set has changed size since the
    iteration started.

    [dispatch] also returns the list of the calls it made, each with the
    parameter as the callback found it. *)

Variable world : Type.
Variable call : callback -> BayesianParameter -> world ->
                BayesianParameter * world.
Variable iter_order : seq callback -> seq callback.

Definition call_log : Type := seq (callback * BayesianParameter).

Fixpoint dispatch_loop (used : nat) (todo : seq callback)
    (p : BayesianParameter) (w : world) (log : call_log)
    : result (BayesianParameter * world * call_log) :=
  if size (_callbacks p) != used then
    Raise (RuntimeError "Set changed size during iteration")
  else
    match todo with
    | [::] => Ok (p, w, log)
    | cb :: todo' =>
        let: (p', w') := call cb p w in
        dispatch_loop used todo' p' w' (rcons log (cb, p))
    end.

Definition dispatch (p : BayesianParameter) (w : world)
    : result (BayesianParameter * world * call_log) :=
  dispatch_loop (size (_callbacks p)) (iter_order (_callbacks p)) p w [::].

(** The callbacks of [order] applied one after the other, each to the
    parameter and the world that the one before left: what the loop of
    [dispatch] amounts to when nothing stops it.  [found] lists the
    parameter as each callback of [order] finds it. *)
Definition apply_callback (s : BayesianParameter * world) (cb : callback)
    : BayesianParameter * world :=
  call cb s.1 s.2.

Definition run_callbacks (order : seq callback) (p : BayesianParameter)
    (w : world) : BayesianParameter * world :=
  foldl apply_callback (p, w) order.

Definition found (order : seq callback) (p : BayesianParameter) (w : world)
    : seq BayesianParameter :=
  [seq s.1 | s <- belast (p, w) (scanl apply_callback (p, w) order)].

(** The value handed to the posterior by [natural_grad_update]: the two
    lines that compute [natural_grad] and [new_nparams].  The sums and the
    difference raise [RuntimeError] on tensors whose lengths do not go
    together ([lrate] is a Python number). *)
Definition new_nparams (lrate : F) (p : BayesianParameter)
    : result (seq F) :=
  let prior_nparams := natural_parameters (prior p) in
  let posterior_nparams := natural_parameters (posterior p) in
  s <- torch_add prior_nparams (data (_stats p)) ;;
  natural_grad <- torch_sub s posterior_nparams ;;
  torch_add posterior_nparams (tscale lrate natural_grad).

(** [ConjugateBayesianParameter.natural_grad_update]. *)
Definition natural_grad_update (lrate : F) (p : BayesianParameter)
    (w : world) : result (BayesianParameter * world * call_log) :=
  v <- new_nparams lrate p ;;
  d <- update_from_natural_parameters (posterior p) v ;;
  dispatch (set_posterior d p) w.

(** *** Conditions on the collaborators *)

(** The family takes the natural parameters [v]: updating any of its
    distributions with [v] succeeds, and the natural parameters are then
    [v]. *)
Definition accepts (v : seq F) : Prop :=
  forall d : dist fam,
    exists2 d', update_from_natural_parameters d v = Ok d'
              & natural_parameters d' = v.

(** The iteration over a set visits each of its elements once. *)
Definition visits_once : Prop :=
  forall s : seq callback, perm_eq (iter_order s) s.

(** The callbacks do not register callbacks on the parameter that runs
    them, and do not touch its posterior. *)
Definition keeps_callbacks : Prop :=
  forall cb p w, _callbacks (call cb p w).1 = _callbacks p.

Definition keeps_posterior : Prop :=
  forall cb p w, posterior (call cb p w).1 = posterior p.

(** The callback set of a parameter has no duplicate. *)
Definition wf (p : BayesianParameter) : bool := uniq (_callbacks p).

(** How many times [cb] was called, and whether every call found the
    natural parameters [v] in the posterior. *)
Definition calls_of (cb : callback) (log : call_log) : nat :=
  count (fun e => e.1 == cb) log.

Definition all_saw (v : seq F) (log : call_log) : bool :=
  all (fun e => natural_parameters (posterior e.2) == v) log.

End Parameters.

(** ** [beer/dists/normalgamma.py] *)

Module NormalGamma.
Section Defs.

Variable F : realFieldType.

(** [NormalGammaStdParams]: [mean] and [rates] have one entry per dimension,
    [scale] and [shape] are shared by all of them. *)
Record NormalGammaStdParams : Type := mkStdParams {
  mean : seq F;
  scale : F;
  shape : F;
  rates : seq F
}.

(** [NormalGammaStdParams.from_natural_parameters].  The indices [-2] and
    [-1] raise [IndexError] on a tensor of less than two entries. *)
Definition from_natural_parameters (natural_params : seq F)
    : result NormalGammaStdParams :=
  if (size natural_params < 2)%N then Raise IndexError
  else
    let dim := ((size natural_params - 2) %/ 2)%N in
    let np1 := take dim natural_params in
    let np2 := drop dim (take (2 * dim) natural_params) in
    let np3 := nth 0 natural_params (size natural_params - 2) in
    let np4 := nth 0 natural_params (size natural_params - 1) in
    let scale := - 2 * np3 in
    let shape := np4 + half F in
    let mean := tdiv np1 scale in
    let rates :=
      tsub (tneg np2) (tscale (half F * scale) (tsquare mean)) in
    Ok (mkStdParams mean scale shape rates).

(** The distribution object holds its standard parameters in [params]. *)
Record NormalGamma : Type := mkNormalGamma {
  params : NormalGammaStdParams
}.

Definition dim (d : NormalGamma) : nat * nat :=
  (size (mean (params d)), size (mean (params d))).

(** [NormalGamma.expected_value]. *)
Definition expected_value (d : NormalGamma) : seq F * seq F :=
  (mean (params d),
   [seq shape (params d) / b | b <- rates (params d)]).

(** [NormalGamma.natural_parameters]. *)
Definition natural_parameters (d : NormalGamma) : seq F :=
  tscale (scale (params d)) (mean (params d))
  ++ tsub (tscale (- half F * scale (params d)) (tsquare (mean (params d))))
          (rates (params d))
  ++ [:: - half F * scale (params d)]
  ++ [:: shape (params d) - half F].

(** [NormalGamma.update_from_natural_parameters]. *)
Definition update_from_natural_parameters (d : NormalGamma)
    (natural_params : seq F) : result NormalGamma :=
  p <- from_natural_parameters natural_params ;;
  Ok (mkNormalGamma p).

(** Standard parameters in the domain of the density: positive scale, shape
    and rates, one rate per dimension. *)
Definition valid (p : NormalGammaStdParams) : bool :=
  [&& 0 < scale p, 0 < shape p, all (fun b => 0 < b) (rates p)
    & size (mean p) == size (rates p)].

(** The Normal-Gamma densities as an exponential family. *)
Definition family : ExponentialFamily F :=
  mkExponentialFamily natural_parameters update_from_natural_parameters.

End Defs.
End NormalGamma.

(** ** Python strings and dictionaries with string keys *)

(** [needle in hay] on two strings: [needle] occurs in [hay]. *)
Definition str_in (needle hay : string) : bool :=
  if String.index 0 needle hay is Some _ then true else false.

(** The double quote character of the error messages. *)
Definition dquote : string :=
  String (Ascii.ascii_of_nat 34) EmptyString.

(** A string between double quotes, as the messages show their argument. *)
Definition quoted (s : string) : string :=
  String.append dquote (String.append s dquote).

(** A dictionary literal, in the order it is written; [d[k]] raises
    [KeyError] when the key is missing. *)
Fixpoint dict_get (V : Type) (d : seq (string * V)) (k : string) : result V :=
  match d with
  | [::] => Raise (KeyError k)
  | (k', v) :: d' => if String.eqb k' k then Ok v else dict_get d' k
  end.

(** ** [beer/models/normalset.py] *)

Module NormalSet.
Section Defs.

(** Tensors, numbers and the keyword arguments of the tensor constructors
    are opaque here: [create] only passes them on. *)
Variables (tensor scalar conf : Type).
Variable tensorconf_of : tensor -> conf.
Variable detach : tensor -> tensor.

(** [JointConjugateBayesianParameters] is imported from [parameters.py]
    but not defined there; the three helpers that build it are taken as
    they are declared, with their number of positional parameters. *)
Variable JointConjugateBayesianParameters : Type.

Inductive maker : Type :=
| Maker4 of (tensor -> tensor -> scalar -> conf ->
             result JointConjugateBayesianParameters)
| Maker6 of (tensor -> tensor -> nat -> scalar -> scalar -> conf ->
             result JointConjugateBayesianParameters).

(** [_default_fullcov_param(mean, cov, prior_strength, tensorconf)]. *)
Variable _default_fullcov_param :
  tensor -> tensor -> scalar -> conf ->
  result JointConjugateBayesianParameters.
(** [_default_diagcov_param(mean, cov, size, prior_strength, noise_std,
    tensorconf)] and [_default_isocov_param], with the same parameters. *)
Variables _default_diagcov_param _default_isocov_param :
  tensor -> tensor -> nat -> scalar -> scalar -> conf ->
  result JointConjugateBayesianParameters.

Definition _default_param : seq (string * maker) :=
  [:: ("full"%string, Maker4 _default_fullcov_param);
      ("diagonal"%string, Maker6 _default_diagcov_param);
      ("isotropic"%string, Maker6 _default_isocov_param)].

(** A call with six positional arguments. *)
Definition call6 (f : maker) (mean cov : tensor) (size : nat)
    (prior_strength noise_std : scalar) (tensorconf : conf)
    : result JointConjugateBayesianParameters :=
  match f with
  | Maker6 g => g mean cov size prior_strength noise_std tensorconf
  | Maker4 _ =>
      Raise (TypeError
        "takes 4 positional arguments but 6 were given")
  end.

Record NormalSet : Type := mkNormalSet {
  means_precisions : JointConjugateBayesianParameters
}.

(** [NormalSet.create].  The deprecation warning issued when [shared_cov]
    is set does not change the result and is left out. *)
Definition create (mean cov : tensor) (size : nat)
    (prior_strength noise_std : scalar) (cov_type : string)
    (shared_cov : bool) : result NormalSet :=
  if ~~ str_in cov_type cov_type then
    Raise (UnknownCovarianceType
             (String.append "Unknown covariance type: " (quoted cov_type)))
  else
    let tensorconf := tensorconf_of mean in
    let mean := detach mean in
    let cov := detach cov in
    makeparam <- dict_get _default_param cov_type ;;
    mp <- call6 makeparam mean cov size prior_strength noise_std tensorconf ;;
    Ok (mkNormalSet mp).

End Defs.
End NormalSet.

(** ** [beer/models/gsm.py] *)

(** The [mode] argument of the likelihood function's [hessian]; it also
    names the three model classes. *)
Inductive hessian_mode : Type := full | diagonal | scalar.

Module GSM.
Section Defs.

Variable F : realFieldType.

(** [N] items in the batch, a subspace of dimension [K], a parameter space
    of dimension [D], and [P] statistics per item: the data has the [P]
    statistics of an item followed by its count on every line. *)
Variables N K D P : nat.

(** *** Tensor operations *)

(** [(A * B)], elementwise. *)
Definition emul (m n : nat) (A B : 'M[F]_(m, n)) : 'M[F]_(m, n) :=
  \matrix_(i, j) (A i j * B i j).

(** [A.sum(dim=-1)]. *)
Definition sum_last (m n : nat) (A : 'M[F]_(m, n)) : 'rV[F]_m :=
  \row_i \sum_j A i j.

(** [A.sum(dim=0)]. *)
Definition sum_first (m n : nat) (A : 'M[F]_(m, n)) : 'rV[F]_n :=
  \row_j \sum_i A i j.

(** [A * v[:, None]]: line [i] of [A] times entry [i] of [v]. *)
Definition scale_lines (m n : nat) (A : 'M[F]_(m, n)) (v : 'rV[F]_m)
    : 'M[F]_(m, n) :=
  \matrix_(i, j) (A i j * v 0 i).

(** [A - v[None]] and [A * v[None]]: [v] against every line of [A]. *)
Definition sub_line (m n : nat) (A : 'M[F]_(m, n)) (v : 'rV[F]_n)
    : 'M[F]_(m, n) :=
  \matrix_(i, j) (A i j - v 0 j).
Definition mul_line (m n : nat) (A : 'M[F]_(m, n)) (v : 'rV[F]_n)
    : 'M[F]_(m, n) :=
  \matrix_(i, j) (A i j * v 0 j).

(** [v[:, None] * A]: entry [i] of [v] times line [i] of [A]. *)
Definition lscale_lines (m n : nat) (v : 'rV[F]_m) (A : 'M[F]_(m, n))
    : 'M[F]_(m, n) :=
  \matrix_(i, j) (v 0 i * A i j).

(** [v[:, None] * u[None]] (also [v[:, None] * u]). *)
Definition outer (m n : nat) (v : 'rV[F]_m) (u : 'rV[F]_n) : 'M[F]_(m, n) :=
  \matrix_(i, j) (v 0 i * u 0 j).

(** [(T * A[:, None, :]).sum(dim=-1)] for a batch [T] of square matrices. *)
Definition bmul_sum (m n : nat) (T : 'I_m -> 'M[F]_n) (A : 'M[F]_(m, n))
    : 'M[F]_(m, n) :=
  \matrix_(i, j) \sum_k (T i j k * A i k).

(** [T.reshape(len(T), -1)]. *)
Definition flatten_items (m n : nat) (T : 'I_m -> 'M[F]_n)
    : 'M[F]_(m, n * n) :=
  \matrix_(i, x) mxvec (T i) 0 x.

(** [_trace_array], on a batch of at least one matrix (the size of the
    matrices is read from [matrices[0]]). *)
Definition _trace_array (m n : nat) (matrices : 'I_m -> 'M[F]_n) : 'rV[F]_m :=
  \row_i \sum_d matrices i d d.

(** [torch.diag(v.reshape(n, n))]. *)
Definition diag_of_flat (n : nat) (v : 'rV[F]_(n * n)) : 'rV[F]_n :=
  \row_j (vec_mx v) j j.

(** *** Collaborators *)

(** The likelihood function of the items.  [hessian] returns a matrix per
    item, a line per item or a number per item according to [mode]. *)
Definition hessians_t (mode : hessian_mode) : Type :=
  match mode with
  | full => 'I_N -> 'M[F]_D
  | diagonal => 'M[F]_(N, D)
  | scalar => 'rV[F]_N
  end.

Record LikelihoodFunction : Type := mkLikelihoodFunction {
  argmax : 'M[F]_(N, P) -> 'rV[F]_N -> 'M[F]_(N, D);
  hessian : 'M[F]_(N, D) -> 'M[F]_(N, P) -> 'rV[F]_N ->
            forall mode : hessian_mode, hessians_t mode;
  llh : 'M[F]_(N, D) -> 'M[F]_(N, P) -> 'rV[F]_N -> 'rV[F]_N
}.

(** The densities of the [beer.priors] package.  A
    [NormalFullCovariancePrior] is held by its natural parameters, the
    attribute that [latent_posteriors] assigns; a [MatrixNormalPrior] by
    the mean and the covariance it is built from.  What the package
    computes from them is a parameter of the development: *)
Record NormalFullCovariancePrior (n : nat) : Type := mkNormalFull {
  nfc_natural_parameters : 'rV[F]_(n + n * n)
}.

Record MatrixNormalPrior : Type := mkMatrixNormal {
  mn_mean : 'M[F]_(K, D);
  cov : 'M[F]_K
}.

Record priors_package : Type := mkPriors {
  (** natural parameters of [NormalFullCovariancePrior(mean, cov)] *)
  nfc_of_std : forall n, 'rV[F]_n -> 'M[F]_n -> 'rV[F]_(n + n * n);
  (** [to_std_parameters] *)
  nfc_to_std : forall n, 'rV[F]_(n + n * n) -> 'rV[F]_n * 'M[F]_n;
  (** [moments]: first moment and flattened second moment *)
  nfc_moments : forall n, 'rV[F]_(n + n * n) -> 'rV[F]_n * 'rV[F]_(n * n);
  (** [kl_div] *)
  nfc_kl_div : forall n, NormalFullCovariancePrior n ->
               NormalFullCovariancePrior n -> F;
  (** second moments of the subspace, only carried around *)
  mn_second : Type;
  mn_moments : MatrixNormalPrior -> 'M[F]_(K, D) * mn_second
}.

Variable pk : priors_package.

(** [NormalFullCovariancePrior(mean, cov)]. *)
Definition new_normal_full (n : nat) (mean : 'rV[F]_n) (cov : 'M[F]_n)
    : NormalFullCovariancePrior n :=
  mkNormalFull (nfc_of_std pk mean cov).

Definition to_std_parameters (n : nat) (d : NormalFullCovariancePrior n)
    : 'rV[F]_n * 'M[F]_n :=
  nfc_to_std pk (nfc_natural_parameters d).

Definition moments (n : nat) (d : NormalFullCovariancePrior n)
    : 'rV[F]_n * 'rV[F]_(n * n) :=
  nfc_moments pk (nfc_natural_parameters d).

(** The assignment [d.natural_parameters = v]. *)
Definition set_natural_parameters (n : nat) (d : NormalFullCovariancePrior n)
    (v : 'rV[F]_(n + n * n)) : NormalFullCovariancePrior n :=
  mkNormalFull v.

(** *** The model *)

(** The attributes [prior] and [posterior] of a [BayesianParameter] and
    [value] of a [ConstantParameter], as the methods of the model read
    them. *)
Record BayesianParameter (T : Type) : Type := mkParam {
  prior : T;
  posterior : T
}.

Record ConstantParameter (T : Type) : Type := mkConstant {
  value : T
}.

(** The call [BayesianParameter(prior, posterior)] of
    [GeneralizedSubspaceModel.__init__].  The class is the one of
    [parameters.py], which has abstract methods: the call raises
    [TypeError] and no object is built. *)
Definition BayesianParameter_new (T : Type) (prior0 posterior0 : T)
    : result (BayesianParameter T) :=
  instantiate "BayesianParameter" BayesianParameter_abstractmethods
    (Ok (mkParam prior0 posterior0)).

(** The intermediate tensors of [latent_posteriors], under their keys. *)
Record lp_cache (mode : hessian_mode) : Type := mkLpCache {
  c_U : 'M[F]_K;
  c_opt : 'M[F]_(N, D);
  c_hessians : hessians_t mode;
  c_tr_hessians : 'rV[F]_N;
  c_m : 'rV[F]_D;
  c_mm : 'rV[F]_(D * D);
  c_W : 'M[F]_(K, D);
  c_WW : mn_second pk;
  c_H : 'M[F]_(N, K);
  c_HH : 'M[F]_(N, K * K);
  c_stats : 'M[F]_(N, P);
  c_counts : 'rV[F]_N;
  c_WHW : 'M[F]_(N, K * K)
}.

(** The same with the key [hW] that [_quad_approx] adds. *)
Record quad_cache (mode : hessian_mode) : Type := mkQuadCache {
  c_lp : lp_cache mode;
  c_hW : 'M[F]_(N, D)
}.

(** A model of the class named by [mode].  [cache] is the dictionary of the
    model: empty ([None]) until a first [expected_log_likelihood], which
    writes every key. *)
Record GeneralizedSubspaceModel (mode : hessian_mode) : Type := mkModel {
  llh_func : LikelihoodFunction;
  subspace : BayesianParameter MatrixNormalPrior;
  mean : BayesianParameter (NormalFullCovariancePrior D);
  latent_prior : ConstantParameter (NormalFullCovariancePrior K);
  cache : option (quad_cache mode)
}.

Definition cache_update (mode : hessian_mode)
    (g : GeneralizedSubspaceModel mode) (c : quad_cache mode)
    : GeneralizedSubspaceModel mode :=
  mkModel (llh_func g) (subspace g) (mean g) (latent_prior g) (Some c).

(** [GeneralizedSubspaceModel.__init__]. *)
Definition GeneralizedSubspaceModel_init (mode : hessian_mode)
    (llh_func : LikelihoodFunction)
    (subspace_prior subspace_posterior : MatrixNormalPrior)
    (mean_prior mean_posterior : NormalFullCovariancePrior D)
    (latent_prior : NormalFullCovariancePrior K)
    : result (GeneralizedSubspaceModel mode) :=
  subspace <- BayesianParameter_new subspace_prior subspace_posterior ;;
  mean <- BayesianParameter_new mean_prior mean_posterior ;;
  Ok (mkModel llh_func subspace mean (mkConstant latent_prior) None).

(** [create] of the three classes: the same body, [cls] being the class.
    [randn] is the draw of [torch.randn(dim_s, dim_o)]. *)
Definition create_cls (mode : hessian_mode) (llh_func : LikelihoodFunction)
    (mean_subspace : 'M[F]_(K, D)) (global_mean : 'rV[F]_D)
    (noise_std prior_strength : F) (randn : 'M[F]_(K, D))
    : result (GeneralizedSubspaceModel mode) :=
  let U : 'M[F]_K := 1%:M in
  let r_M := mean_subspace + noise_std *: randn in
  let subspace_prior := mkMatrixNormal mean_subspace U in
  let subspace_posterior := mkMatrixNormal r_M U in
  let S : 'M[F]_D := prior_strength *: 1%:M in
  let mean_prior := new_normal_full global_mean S in
  let mean_posterior := new_normal_full global_mean S in
  let latent_mean : 'rV[F]_K := 0 in
  let latent_cov : 'M[F]_K := 1%:M in
  let latent_prior := new_normal_full latent_mean latent_cov in
  GeneralizedSubspaceModel_init mode llh_func
    subspace_prior subspace_posterior mean_prior mean_posterior
    latent_prior.

(** [GeneralizedSubspaceModel.create]. *)
Definition create (llh_func : LikelihoodFunction)
    (mean_subspace : 'M[F]_(K, D)) (global_mean : 'rV[F]_D)
    (noise_std prior_strength : F) (hessian_type : string)
    (randn : 'M[F]_(K, D))
    : result {mode : hessian_mode & GeneralizedSubspaceModel mode} :=
  let cls mode :=
    g <- create_cls mode llh_func mean_subspace global_mean
                    noise_std prior_strength randn ;;
    Ok (existT _ mode g) in
  if String.eqb hessian_type "full" then cls full
  else if String.eqb hessian_type "diagonal" then cls diagonal
  else if String.eqb hessian_type "scalar" then cls scalar
  else Raise (ValueError
                (String.append "Unknown hessian type: " (quoted hessian_type))).

Section Methods.

Variable mode : hessian_mode.
Variable self : GeneralizedSubspaceModel mode.

(** [_create_latent_posteriors(n)], for the [N] items of a batch. *)
Definition _create_latent_posteriors
    : N.-tuple (NormalFullCovariancePrior K) :=
  let std_params := to_std_parameters (value (latent_prior self)) in
  [tuple new_normal_full std_params.1 std_params.2 | i < N].

(** [_extract_moments]. *)
Definition _extract_moments
    : 'rV[F]_D * 'rV[F]_(D * D) * 'M[F]_(K, D) * mn_second pk :=
  let: (m, mm) := moments (posterior (mean self)) in
  let: (W, WW) := mn_moments pk (posterior (subspace self)) in
  (m, mm, W, WW).

(** [_latent_kl_div]. *)
Definition _latent_kl_div (l_posts : N.-tuple (NormalFullCovariancePrior K))
    : 'rV[F]_N :=
  \row_i nfc_kl_div pk (tnth l_posts i) (value (latent_prior self)).

(** [sufficient_statistics]. *)
Definition sufficient_statistics (T : Type) (data : T) : T := data.

(** The loop that gives every latent posterior its natural parameters,
    followed by the stacking of their moments in [H] and [HH]. *)
Definition assign_natural_parameters
    (l_posts : N.-tuple (NormalFullCovariancePrior K))
    (acc_stats : 'M[F]_(N, K + K * K))
    : N.-tuple (NormalFullCovariancePrior K) :=
  let nparams_0 := nfc_natural_parameters (value (latent_prior self)) in
  [tuple set_natural_parameters (tnth l_posts i)
           (nparams_0 + row i acc_stats) | i < N].

Definition stack_first (l_posts : N.-tuple (NormalFullCovariancePrior K))
    : 'M[F]_(N, K) :=
  \matrix_(i, j) (moments (tnth l_posts i)).1 0 j.

Definition stack_second (l_posts : N.-tuple (NormalFullCovariancePrior K))
    : 'M[F]_(N, K * K) :=
  \matrix_(i, j) (moments (tnth l_posts i)).2 0 j.

(** [data[:, :-1]] and [data[:, -1]]. *)
Definition stats_of (data : 'M[F]_(N, P + 1)) : 'M[F]_(N, P) := lsubmx data.
Definition counts_of (data : 'M[F]_(N, P + 1)) : 'rV[F]_N :=
  \row_i data i (rshift P ord0).

End Methods.

(** What [latent_posteriors] returns: the latent posteriors alone, or with
    the cache when [cache=True]. *)
Inductive lp_return (mode : hessian_mode) : Type :=
| Posts of N.-tuple (NormalFullCovariancePrior K)
| PostsCache of N.-tuple (NormalFullCovariancePrior K) & lp_cache mode.

Definition posts_of (mode : hessian_mode) (r : lp_return mode)
    : N.-tuple (NormalFullCovariancePrior K) :=
  match r with
  | Posts l => l
  | PostsCache l _ => l
  end.

(** What [accumulate] returns: the statistics of the two parameters. *)
Record accumulated : Type := mkAccumulated {
  mean_stats : 'rV[F]_(D + D * D);
  subspace_stats : 'rV[F]_(K * D + K * K)
}.

(** The end of the three [_quad_approx]. *)
Definition quad_value (self_llh : 'rV[F]_N)
    (hWHWh mHm quad_opt mHWh oHm oHWh : 'rV[F]_N) : 'rV[F]_N :=
  self_llh
  + half F *: (hWHWh + mHm + quad_opt + 2 *: (mHWh - oHm - oHWh)).

(** The second half of the three [accumulate]: the subspace statistics. *)
Definition isometric (tr_hessians : 'rV[F]_N) : 'rV[F]_N :=
  \row_i (tr_hessians 0 i / D%:R).

(** **** [GeneralizedSubspaceModelFull] *)

Section Full.

Variable self : GeneralizedSubspaceModel full.

Definition Full_latent_posteriors_cache (data : 'M[F]_(N, P + 1))
    : N.-tuple (NormalFullCovariancePrior K) * lp_cache full :=
  let stats := stats_of data in
  let counts := counts_of data in
  let l_posts := _create_latent_posteriors self in
  let: (m, mm, W, WW) := _extract_moments self in
  let opt := argmax (llh_func self) stats counts in
  let hessians : 'I_N -> 'M[F]_D :=
    hessian (llh_func self) opt stats counts full in
  let U := cov (posterior (subspace self)) in
  let tr_hessians := _trace_array hessians in
  let WHW3 := fun i => tr_hessians 0 i *: U + W *m hessians i *m W^T in
  let WHW := flatten_items WHW3 in
  let m_opt := sub_line opt m in
  let Hm_o := bmul_sum hessians m_opt in
  let acc_stats := row_mx (- Hm_o *m W^T) (half F *: WHW) in
  let l_posts := assign_natural_parameters self l_posts acc_stats in
  let H := stack_first l_posts in
  let HH := stack_second l_posts in
  (l_posts,
   @mkLpCache full U opt hessians tr_hessians m mm W WW H HH stats counts
              WHW).

Definition Full_latent_posteriors (data : 'M[F]_(N, P + 1)) (cache : bool)
    : lp_return full :=
  let: (l_posts, c) := Full_latent_posteriors_cache data in
  if ~~ cache then Posts _ l_posts else PostsCache l_posts c.

Definition Full__quad_approx (cache : lp_cache full)
    : 'rV[F]_N * quad_cache full :=
  let opt := c_opt cache in
  let hessians : 'I_N -> 'M[F]_D := c_hessians cache in
  let m := c_m cache in
  let mm := c_mm cache in
  let W := c_W cache in
  let WHW := c_WHW cache in
  let H := c_H cache in
  let HH := c_HH cache in
  let stats := c_stats cache in
  let counts := c_counts cache in
  let mHm := sum_last (mul_line (flatten_items hessians) mm) in
  let hW := H *m W in
  let Hm : 'M[F]_(N, D) := \matrix_(i, j) \sum_k (hessians i j k * m 0 k) in
  let mHWh := sum_last (emul hW Hm) in
  let oHm := sum_last (emul opt Hm) in
  let oH := bmul_sum hessians opt in
  let oHWh := sum_last (emul oH hW) in
  let hWHWh := sum_last (emul HH WHW) in
  let opt_quad :=
    flatten_items (fun i => \matrix_(a, b) (opt i a * opt i b)) in
  let rs_hessians := flatten_items hessians in
  let quad_opt := sum_last (emul rs_hessians opt_quad) in
  let new_cache := mkQuadCache cache hW in
  (quad_value (llh (llh_func self) opt stats counts)
              hWHWh mHm quad_opt mHWh oHm oHWh,
   new_cache).

Definition Full_expected_log_likelihood (stats : 'M[F]_(N, P + 1))
    : 'rV[F]_N * GeneralizedSubspaceModel full :=
  let: (l_posts, cache) := Full_latent_posteriors_cache stats in
  let: (approx_llh, cache) := Full__quad_approx cache in
  (approx_llh - _latent_kl_div self l_posts, cache_update self cache).

Definition Full_accumulate (stats : 'M[F]_(N, P + 1)) : result accumulated :=
  if cache self is Some c then
    let hessians : 'I_N -> 'M[F]_D := c_hessians (c_lp c) in
    let tr_hessians := c_tr_hessians (c_lp c) in
    let hW := c_hW c in
    let opt := c_opt (c_lp c) in
    let m := c_m (c_lp c) in
    let H := c_H (c_lp c) in
    let HH := c_HH (c_lp c) in
    let HWh_o := bmul_sum hessians (opt - hW) in
    let sum_hessians := half F *: (\sum_i hessians i) in
    let mean_stats := row_mx (- sum_first HWh_o) (mxvec sum_hessians) in
    let isometric_params := isometric tr_hessians in
    let to_m := scale_lines (sub_line opt m) isometric_params in
    let tHH := scale_lines HH isometric_params in
    let tHH := half F *: (sum_first tHH)^T in
    let subspace_stats := row_mx (- mxvec (H^T *m to_m)) (tHH^T) in
    Ok (mkAccumulated mean_stats subspace_stats)
  else Raise (KeyError "hessians").

End Full.

(** **** [GeneralizedSubspaceModelDiagonal] *)

Section Diagonal.

Variable self : GeneralizedSubspaceModel diagonal.

Definition Diagonal_latent_posteriors_cache (data : 'M[F]_(N, P + 1))
    : N.-tuple (NormalFullCovariancePrior K) * lp_cache diagonal :=
  let stats := stats_of data in
  let counts := counts_of data in
  let l_posts := _create_latent_posteriors self in
  let: (m, mm, W, WW) := _extract_moments self in
  let opt := argmax (llh_func self) stats counts in
  let hessians : 'M[F]_(N, D) :=
    hessian (llh_func self) opt stats counts diagonal in
  let U := cov (posterior (subspace self)) in
  let tr_hessians := sum_last hessians in
  let HW : 'I_N -> 'M[F]_(K, D) :=
    fun i => \matrix_(a, b) (hessians i b * W a b) in
  let WHW3 := fun i => tr_hessians 0 i *: U + HW i *m W^T in
  let WHW := flatten_items WHW3 in
  let m_opt := sub_line opt m in
  let Hm_o := emul hessians m_opt in
  let acc_stats := row_mx (- Hm_o *m W^T) (half F *: WHW) in
  let l_posts := assign_natural_parameters self l_posts acc_stats in
  let H := stack_first l_posts in
  let HH := stack_second l_posts in
  (l_posts,
   @mkLpCache diagonal U opt hessians tr_hessians m mm W WW H HH stats
              counts WHW).

Definition Diagonal_latent_posteriors (data : 'M[F]_(N, P + 1))
    (cache : bool) : lp_return diagonal :=
  let: (l_posts, c) := Diagonal_latent_posteriors_cache data in
  if ~~ cache then Posts _ l_posts else PostsCache l_posts c.

Definition Diagonal__quad_approx (cache : lp_cache diagonal)
    : 'rV[F]_N * quad_cache diagonal :=
  let opt := c_opt cache in
  let hessians : 'M[F]_(N, D) := c_hessians cache in
  let m := c_m cache in
  let mm := c_mm cache in
  let W := c_W cache in
  let WHW := c_WHW cache in
  let H := c_H cache in
  let HH := c_HH cache in
  let stats := c_stats cache in
  let counts := c_counts cache in
  let mm_diag := diag_of_flat mm in
  let mHm := sum_last (mul_line hessians mm_diag) in
  let hW := H *m W in
  let Hm := mul_line hessians m in
  let mHWh := sum_last (emul hW Hm) in
  let oHm := sum_last (emul opt Hm) in
  let oH := emul hessians opt in
  let oHWh := sum_last (emul oH hW) in
  let hWHWh := sum_last (emul HH WHW) in
  let quad_opt := sum_last (emul (emul hessians opt) opt) in
  let new_cache := mkQuadCache cache hW in
  (quad_value (llh (llh_func self) opt stats counts)
              hWHWh mHm quad_opt mHWh oHm oHWh,
   new_cache).

Definition Diagonal_expected_log_likelihood (stats : 'M[F]_(N, P + 1))
    : 'rV[F]_N * GeneralizedSubspaceModel diagonal :=
  let: (l_posts, cache) := Diagonal_latent_posteriors_cache stats in
  let: (approx_llh, cache) := Diagonal__quad_approx cache in
  (approx_llh - _latent_kl_div self l_posts, cache_update self cache).

Definition Diagonal_accumulate (stats : 'M[F]_(N, P + 1))
    : result accumulated :=
  if cache self is Some c then
    let hessians : 'M[F]_(N, D) := c_hessians (c_lp c) in
    let tr_hessians := c_tr_hessians (c_lp c) in
    let hW := c_hW c in
    let opt := c_opt (c_lp c) in
    let m := c_m (c_lp c) in
    let H := c_H (c_lp c) in
    let HH := c_HH (c_lp c) in
    let HWh_o := emul hessians (opt - hW) in
    let I : 'M[F]_D := 1%:M in
    let mean_stats :=
      row_mx (- sum_first HWh_o)
             (half F *: mxvec (\sum_i \matrix_(a, b) (hessians i b * I a b)))
    in
    let isometric_params := isometric tr_hessians in
    let to_m := scale_lines (sub_line opt m) isometric_params in
    let tHH := scale_lines HH isometric_params in
    let subspace_stats :=
      row_mx (- mxvec (H^T *m to_m)) (half F *: sum_first tHH) in
    Ok (mkAccumulated mean_stats subspace_stats)
  else Raise (KeyError "hessians").

End Diagonal.

(** **** [GeneralizedSubspaceModelScalar] *)

Section Scalar.

Variable self : GeneralizedSubspaceModel scalar.

Definition Scalar_latent_posteriors_cache (data : 'M[F]_(N, P + 1))
    : N.-tuple (NormalFullCovariancePrior K) * lp_cache scalar :=
  let stats := stats_of data in
  let counts := counts_of data in
  let l_posts := _create_latent_posteriors self in
  let: (m, mm, W, WW) := _extract_moments self in
  let opt := argmax (llh_func self) stats counts in
  let hessians : 'rV[F]_N :=
    hessian (llh_func self) opt stats counts scalar in
  let U := cov (posterior (subspace self)) in
  let tr_hessians : 'rV[F]_N := \row_i (hessians 0 i * D%:R) in
  let HW : 'I_N -> 'M[F]_(K, D) := fun i => hessians 0 i *: W in
  let WHW3 := fun i => tr_hessians 0 i *: U + HW i *m W^T in
  let WHW := flatten_items WHW3 in
  let m_opt := sub_line opt m in
  let Hm_o := lscale_lines hessians m_opt in
  let acc_stats := row_mx (- Hm_o *m W^T) (half F *: WHW) in
  let l_posts := assign_natural_parameters self l_posts acc_stats in
  let H := stack_first l_posts in
  let HH := stack_second l_posts in
  (l_posts,
   @mkLpCache scalar U opt hessians tr_hessians m mm W WW H HH stats counts
              WHW).

Definition Scalar_latent_posteriors (data : 'M[F]_(N, P + 1)) (cache : bool)
    : lp_return scalar :=
  let: (l_posts, c) := Scalar_latent_posteriors_cache data in
  if ~~ cache then Posts _ l_posts else PostsCache l_posts c.

Definition Scalar__quad_approx (cache : lp_cache scalar)
    : 'rV[F]_N * quad_cache scalar :=
  let opt := c_opt cache in
  let hessians : 'rV[F]_N := c_hessians cache in
  let m := c_m cache in
  let mm := c_mm cache in
  let W := c_W cache in
  let WHW := c_WHW cache in
  let H := c_H cache in
  let HH := c_HH cache in
  let stats := c_stats cache in
  let counts := c_counts cache in
  let mm_diag := diag_of_flat mm in
  let mHm := sum_last (outer hessians mm_diag) in
  let hW := H *m W in
  let Hm := outer hessians m in
  let mHWh := sum_last (emul hW Hm) in
  let oHm := sum_last (emul opt Hm) in
  let oH := lscale_lines hessians opt in
  let oHWh := sum_last (emul oH hW) in
  let hWHWh := sum_last (emul HH WHW) in
  let quad_opt := sum_last (emul (lscale_lines hessians opt) opt) in
  let new_cache := mkQuadCache cache hW in
  (quad_value (llh (llh_func self) opt stats counts)
              hWHWh mHm quad_opt mHWh oHm oHWh,
   new_cache).

Definition Scalar_expected_log_likelihood (stats : 'M[F]_(N, P + 1))
    : 'rV[F]_N * GeneralizedSubspaceModel scalar :=
  let: (l_posts, cache) := Scalar_latent_posteriors_cache stats in
  let: (approx_llh, cache) := Scalar__quad_approx cache in
  (approx_llh - _latent_kl_div self l_posts, cache_update self cache).

Definition Scalar_accumulate (stats : 'M[F]_(N, P + 1))
    : result accumulated :=
  if cache self is Some c then
    let hessians : 'rV[F]_N := c_hessians (c_lp c) in
    let tr_hessians := c_tr_hessians (c_lp c) in
    let hW := c_hW c in
    let opt := c_opt (c_lp c) in
    let m := c_m (c_lp c) in
    let H := c_H (c_lp c) in
    let HH := c_HH (c_lp c) in
    let HWh_o := lscale_lines hessians (opt - hW) in
    let I : 'M[F]_D := 1%:M in
    let mean_stats :=
      row_mx (- sum_first HWh_o)
             (half F *: mxvec (\sum_i \matrix_(a, b) (hessians 0 i * I a b)))
    in
    let isometric_params := isometric tr_hessians in
    let to_m := scale_lines (sub_line opt m) isometric_params in
    let tHH := scale_lines HH isometric_params in
    let subspace_stats :=
      row_mx (- mxvec (H^T *m to_m)) (half F *: sum_first tHH) in
    Ok (mkAccumulated mean_stats subspace_stats)
  else Raise (KeyError "hessians").

End Scalar.

(** *** Hessians that agree across the modes

    On a batch, the three outputs of [hessian] describe the same curvature:
    the full matrix of an item is diagonal, its diagonal is the line of the
    diagonal mode, and all the entries of that line are the number of the
    scalar mode.  In dimension one this says that the three outputs are the
    same number, up to their shape. *)
Definition hessians_agree (lf : LikelihoodFunction)
    (data : 'M[F]_(N, P + 1)) : Prop :=
  let stats := stats_of data in
  let counts := counts_of data in
  let opt := argmax lf stats counts in
  (forall i a b,
     (hessian lf opt stats counts full : 'I_N -> 'M[F]_D) i a b
     = if a == b
       then (hessian lf opt stats counts diagonal : 'M[F]_(N, D)) i a
       else 0)
  /\ (forall i a,
        (hessian lf opt stats counts diagonal : 'M[F]_(N, D)) i a
        = (hessian lf opt stats counts scalar : 'rV[F]_N) 0 i).

End Defs.
End GSM.

(** ** Detached statistics

    The statistics of a parameter do not require a gradient. *)
Definition detached (F : realFieldType) (fam : ExponentialFamily F)
    (callback : eqType) (p : BayesianParameter fam callback) : bool :=
  ~~ requires_grad (_stats p).

(** ** [beer/dists/normalgamma.py]: the joint Normal-Gamma *)

Module JointNormalGamma.
Section Defs.

Variable F : realFieldType.

(** [x * y], elementwise. *)
Definition tmul (x y : seq F) : seq F := [seq p.1 * p.2 | p <- zip x y].

(** A two-dimensional tensor with at least one line is the sequence of its
    lines.  [x.sum(dim=0)] adds the lines up, [width] being their
    length. *)
Definition sum_dim0 (width : nat) (x : seq (seq F)) : seq F :=
  foldr (@tadd F) (nseq width 0) x.

(** [s[:, None] * x] and [x / s[:, None]]: line [k] against entry [k] of
    [s]. *)
Definition lines_scale (s : seq F) (x : seq (seq F)) : seq (seq F) :=
  [seq tscale p.1 p.2 | p <- zip s x].
Definition lines_div (x : seq (seq F)) (s : seq F) : seq (seq F) :=
  [seq tdiv p.1 p.2 | p <- zip x s].

(** [means] has one line per Normal, [scales] one entry per Normal, [rates]
    one entry per dimension. *)
Record JointNormalGammaStdParams : Type := mkStdParams {
  means : seq (seq F);
  scales : seq F;
  shape : F;
  rates : seq F
}.

(** [JointNormalGammaStdParams.from_natural_parameters].  A tensor of less
    than [ncomp + 1] entries gives [dim = -1] and nothing to reshape. *)
Definition from_natural_parameters (natural_params : seq F) (ncomp : nat)
    : result JointNormalGammaStdParams :=
  let len := size natural_params in
  if (len < ncomp + 1)%N then
    Raise (RuntimeError "cannot reshape tensor of 0 elements")
  else
    let dim := ((len - ncomp - 1) %/ (ncomp + 1))%N in
    let np1s := reshape (nseq ncomp dim) (take (ncomp * dim) natural_params) in
    let np2 :=
      drop (ncomp * dim) (take ((ncomp + 1) * dim) natural_params) in
    let np3s := drop (len - (ncomp + 1)) (take (len - 1) natural_params) in
    let np4 := nth 0 natural_params (len - 1) in
    let scales := tscale (- 2) np3s in
    let shape := np4 + 1 - half F * ncomp%:R in
    let means := lines_div np1s scales in
    let rates :=
      tsub (tneg np2)
           (tscale (half F)
              (sum_dim0 dim
                 [seq tmul p.1 p.2 | p <- zip (lines_scale scales means)
                                              means])) in
    Ok (mkStdParams means scales shape rates).

Record JointNormalGamma : Type := mkJointNormalGamma {
  params : JointNormalGammaStdParams
}.

(** [JointNormalGamma.dim]: [((K, D), D)]. *)
Definition dim (d : JointNormalGamma) : (nat * nat) * nat :=
  let K := size (means (params d)) in
  let D := size (head [::] (means (params d))) in
  ((K, D), D).

(** [JointNormalGamma.expected_value]. *)
Definition expected_value (d : JointNormalGamma) : seq (seq F) * seq F :=
  (means (params d), [seq shape (params d) / b | b <- rates (params d)]).

(** [JointNormalGamma.natural_parameters]. *)
Definition natural_parameters (d : JointNormalGamma) : seq F :=
  let ncomp := (dim d).1.1 in
  flatten (lines_scale (scales (params d)) (means (params d)))
  ++ tsub (tscale (- half F)
             (sum_dim0 (dim d).2
                (lines_scale (scales (params d))
                   [seq tsquare m | m <- means (params d)])))
          (rates (params d))
  ++ tscale (- half F) (scales (params d))
  ++ [:: shape (params d) - 1 + half F * ncomp%:R].

(** [JointNormalGamma.update_from_natural_parameters]. *)
Definition update_from_natural_parameters (d : JointNormalGamma)
    (natural_params : seq F) : result JointNormalGamma :=
  let ncomp := (dim d).1.1 in
  p <- from_natural_parameters natural_params ncomp ;;
  Ok (mkJointNormalGamma p).

(** Standard parameters in the domain of the density: at least one Normal,
    a positive scale for each, a positive shape, positive rates, and one
    entry per dimension in every mean. *)
Definition valid (p : JointNormalGammaStdParams) : bool :=
  [&& (0 < size (means p))%N, size (scales p) == size (means p),
      all (fun s => 0 < s) (scales p), 0 < shape p,
      all (fun b => 0 < b) (rates p)
    & all (fun m => size m == size (rates p)) (means p)].

End Defs.
End JointNormalGamma.

(** ** [beer/models/categorical.py]: the stick-breaking categorical *)

Module SBCategorical.

(** [SBCategorical.reverse_ordering].  [ordering] is a tensor of indices;
    the loop writes [i] at position [ordering[i]] of a tensor of zeros of
    the same length, and an index beyond the end raises [IndexError]. *)
Definition reverse_ordering_step (acc : result (seq nat)) (ij : nat * nat)
    : result (seq nat) :=
  reverse_ordering <- acc ;;
  if (ij.2 < size reverse_ordering)%N
  then Ok (set_nth 0%N reverse_ordering ij.2 ij.1)
  else Raise IndexError.

Definition enumerate (T : Type) (s : seq T) : seq (nat * T) :=
  zip (iota 0 (size s)) s.

Definition reverse_ordering (ordering : seq nat) : result (seq nat) :=
  foldl reverse_ordering_step (Ok (nseq (size ordering) 0%N))
        (enumerate ordering).

Section Accumulate.

Variable F : realFieldType.

(** [N] one-hot encoded data points over [T] components. *)
Variables N T : nat.

(** [v.sort(descending=True)[1]]: the indices that sort [v]; the order of
    equal entries is not fixed. *)
Variable argsort_descending : 'rV[F]_T -> 'I_T -> 'I_T.

(** [A.sum(dim=0)]. *)
Definition sum_dim0 (m n : nat) (A : 'M[F]_(m, n)) : 'rV[F]_n :=
  \row_j \sum_i A i j.

(** [A[:, ordering]]. *)
Definition gather_columns (A : 'M[F]_(N, T)) (ordering : 'I_T -> 'I_T)
    : 'M[F]_(N, T) :=
  \matrix_(i, j) A i (ordering j).

(** [torch.flip(A, dims=(1,))] and [A.cumsum(dim=1)]. *)
Definition flip (A : 'M[F]_(N, T)) : 'M[F]_(N, T) :=
  \matrix_(i, j) A i (rev_ord j).

Definition cumsum (A : 'M[F]_(N, T)) : 'M[F]_(N, T) :=
  \matrix_(i, j) \sum_(k < T | (k <= j)%N) A i k.

(** The entry of column [k], zero beyond the last column. *)
Definition column_or_zero (A : 'M[F]_(N, T)) (i : 'I_N) (k : nat) : F :=
  if insub k is Some k' then A i k' else 0.

(** [s2 = zeros_like(A); s2[:, :-1] = A[:, 1:]]. *)
Definition shift_left (A : 'M[F]_(N, T)) : 'M[F]_(N, T) :=
  \matrix_(i, j) column_or_zero A i j.+1.

(** [cat([A[:, :, None], B[:, :, None]], dim=-1)]. *)
Definition stack_last (A B : 'M[F]_(N, T)) : 'I_N -> 'M[F]_(T, 2) :=
  fun n => \matrix_(j, c) (if c == ord0 then A n j else B n j).

(** On the view of shape [(-1, 2)]:
    [x[:, -1] += x[:, :-1].sum(dim=-1)]. *)
Definition add_to_last (x : 'I_N -> 'M[F]_(T, 2)) : 'I_N -> 'M[F]_(T, 2) :=
  fun n => \matrix_(j, c)
    (if c == ord_max
     then x n j c + \sum_(c' < 2 | c' != ord_max) x n j c'
     else x n j c).

(** [SBCategorical.accumulate]: the new ordering of the components and
    the statistics of the stick-breaking parameter. *)
Definition accumulate (stats : 'M[F]_(N, T))
    : ('I_T -> 'I_T) * 'M[F]_(T, 2) :=
  let ordering := argsort_descending (sum_dim0 stats) in
  let ordered_stats := gather_columns stats ordering in
  let s2 := shift_left ordered_stats in
  let s2 := flip (cumsum (flip s2)) in
  let new_stats := stack_last ordered_stats s2 in
  let new_stats := add_to_last new_stats in
  (ordering, \sum_n new_stats n).

(** The ordering as the tensor of indices that [self.ordering] holds. *)
Definition ordering_tensor (ordering : 'I_T -> 'I_T) : seq nat :=
  [seq val (ordering j) | j <- enum 'I_T].

End Accumulate.

End SBCategorical.

(** ** The bilinear form of a square matrix

    [form Hs u v] is the number [u Hs v^T], for two lines [u] and [v]. *)
Definition form (F : realFieldType) (D : nat) (Hs : 'M[F]_D)
    (u v : 'rV[F]_D) : F :=
  (u *m Hs *m v^T) 0 0.


(** ** Concrete instances

    Small instances over the rationals, on which the definitions above can
    be run. *)

Definition ex_prior : NormalGamma.NormalGamma rat :=
  NormalGamma.mkNormalGamma (NormalGamma.mkStdParams [:: 0] 1 1 [:: 1]).

Definition ex_posterior : NormalGamma.NormalGamma rat :=
  NormalGamma.mkNormalGamma (NormalGamma.mkStdParams [:: 1] 2 1 [:: 1]).

Definition ex_normal_gamma : NormalGamma.NormalGamma rat :=
  NormalGamma.mkNormalGamma (NormalGamma.mkStdParams [:: 1; 2] 3 2 [:: 1; 4]).

Definition ex_param : BayesianParameter (NormalGamma.family rat) nat :=
  ConjugateBayesianParameter_init nat
    (ex_prior : dist (NormalGamma.family rat)) ex_posterior.

Definition ex_stats : Tensor rat := mkTensor [:: 2; -3; -1; 1] true.

(** A callback that writes its name down and changes nothing else. *)
Definition ex_call (cb : nat)
    (p : BayesianParameter (NormalGamma.family rat) nat) (w : seq nat)
    : BayesianParameter (NormalGamma.family rat) nat * seq nat :=
  (p, rcons w cb).

(** A stand-in for [beer/priors]: a density is held by its mean followed
    by its flattened covariance. *)
Definition ex_priors (K D : nat) : GSM.priors_package rat K D :=
  @GSM.mkPriors rat K D
    (fun n mean cov => row_mx mean (mxvec cov))
    (fun n v => (lsubmx v, vec_mx (rsubmx v)))
    (fun n v => (lsubmx v, rsubmx v))
    (fun n d1 d2 => 0)
    unit
    (fun d => (GSM.mn_mean d, tt)).

(** A likelihood function with optimum [0] and curvature [-1] in every
    direction, for every item. *)
Definition ex_llh (N D P : nat) : GSM.LikelihoodFunction rat N D P :=
  GSM.mkLikelihoodFunction
    (fun stats counts => 0)
    (fun opt stats counts mode =>
       match mode return GSM.hessians_t rat N D mode with
       | full => fun i => (- 1)%:M
       | diagonal => const_mx (- 1)
       | scalar => const_mx (- 1)
       end)
    (fun opt stats counts => 0).

(** Two items, a subspace of dimension one in a parameter space of
    dimension two, one statistic per item; the attributes are the densities
    that [create] computes from the subspace mean [(1 0)], the global mean
    [0], no noise and a prior strength of [1]. *)
Definition ex_model (mode : hessian_mode)
    : GSM.GeneralizedSubspaceModel 2 1 (ex_priors 1 2) mode :=
  let M : 'M[rat]_(1, 1 + 1) := row_mx 1 0 in
  let mean_prior := GSM.new_normal_full (ex_priors 1 2) 0 (1 *: 1%:M) in
  @GSM.mkModel rat 2 1 2 1 (ex_priors 1 2) mode (ex_llh 2 2 1)
    (GSM.mkParam (GSM.mkMatrixNormal M 1%:M)
                 (GSM.mkMatrixNormal (M + 0 *: 0) 1%:M))
    (GSM.mkParam mean_prior mean_prior)
    (GSM.mkConstant (GSM.new_normal_full (ex_priors 1 2) 0 1%:M))
    None.

Definition ex_data : 'M[rat]_(2, 1 + 1) := const_mx 1.

Definition ex_joint : JointNormalGamma.JointNormalGamma rat :=
  JointNormalGamma.mkJointNormalGamma
    (JointNormalGamma.mkStdParams [:: [:: 1; 2]; [:: 3; 4]] [:: 2; 3] 2
                                  [:: 1; 5]).

(** Two other Normals, of dimension one. *)
Definition ex_joint0 : JointNormalGamma.JointNormalGamma rat :=
  JointNormalGamma.mkJointNormalGamma
    (JointNormalGamma.mkStdParams [:: [:: 0]; [:: 7]] [:: 1; 1] 1 [:: 1]).

(** A vector of odd length. *)
Definition ex_odd : seq rat := [:: 1; 2; 3].

Definition ex_natural : seq rat := [:: 1; - (3 / 2); - (3 / 4); 1 / 2].

(** Three components, ranked second, third and first. *)
Definition ex_ordering : seq nat := [:: 2%N; 0%N; 1%N].

(** A sort that leaves the components in place. *)
Definition ex_argsort (T : nat) (v : 'rV[rat]_T) (j : 'I_T) : 'I_T := j.

(** A cache with point moments: the mean is [0], every latent posterior
    sits at [1], and the curvature is [-1] in every direction. *)
Definition ex_cache : GSM.lp_cache 2 1 (ex_priors 1 2) full :=
  let Hess : 'I_2 -> 'M[rat]_2 := fun i => (- 1)%:M in
  let m : 'rV[rat]_2 := 0 in
  let W : 'M[rat]_(1, 2) := row_mx 1 0 in
  let H : 'M[rat]_(2, 1) := const_mx 1 in
  @GSM.mkLpCache rat 2 1 2 1 (ex_priors 1 2) full
    0 (const_mx 1) Hess 0 m (mxvec (m^T *m m)) W tt H
    (\matrix_(i, x) mxvec ((row i H)^T *m row i H) 0 x)
    (GSM.stats_of ex_data) (GSM.counts_of ex_data)
    (\matrix_(i, x) mxvec (W *m Hess i *m W^T) 0 x).

(** * Properties *)

(** ** Tensors *)

Section TensorTheory.

Variable F : realFieldType.
Implicit Types (x y z : seq F) (c : F).

Lemma two_half c : 2 * (half F * c) = c.
Proof. by rewrite /half mulrA divff ?mul1r // pnatr_eq0. Qed.

Lemma neg2_neg_half c : - 2 * (- half F * c) = c.
Proof. by rewrite !mulNr mulrN opprK two_half. Qed.

Lemma size_tadd x y : size x = size y -> size (tadd x y) = size x.
Proof. by move=> e; rewrite size_map size_zip e minnn. Qed.

Lemma size_tsub x y : size x = size y -> size (tsub x y) = size x.
Proof. by move=> e; rewrite size_map size_zip e minnn. Qed.

Lemma size_tscale c x : size (tscale c x) = size x.
Proof. by rewrite size_map. Qed.

(** On operands of the same length nothing is repeated and nothing is
    raised. *)
Lemma torch_add_same x y : size x = size y -> torch_add x y = Ok (tadd x y).
Proof. by rewrite /torch_add /broadcast => ->; rewrite eqxx. Qed.

Lemma torch_sub_same x y : size x = size y -> torch_sub x y = Ok (tsub x y).
Proof. by rewrite /torch_sub /broadcast => ->; rewrite eqxx. Qed.

(** One step of size 1 from [x] towards [y] lands on [y]. *)
Lemma tadd_full_step x y :
  size y = size x -> tadd x (tscale 1 (tsub y x)) = y.
Proof.
rewrite /tadd /tscale /tsub; elim: x y => [|a x IH] [|b y] //= [e].
by rewrite mul1r [a + _]addrC subrK (IH _ e).
Qed.

(** Undoing [tscale] by a division. *)
Lemma tdiv_tscale c x : c != 0 -> tdiv (tscale c x) c = x.
Proof.
move=> c0; rewrite /tdiv /tscale -map_comp -[RHS]map_id.
by apply: eq_map => a /=; rewrite mulrC mulKf.
Qed.

(** The rates come back from the second block of the natural parameters. *)
Lemma rates_back c x y :
  size x = size y ->
  tsub (tneg (tsub (tscale (- c) (tsquare x)) y)) (tscale c (tsquare x)) = y.
Proof.
rewrite /tsub /tneg /tscale /tsquare; elim: x y => [|a x IH] [|b y] //= [e].
rewrite (IH _ e); congr (_ :: _).
by rewrite mulNr opprB opprK addrK.
Qed.

End TensorTheory.

(** ** The callback set *)

Section SetTheory.

Variable callback : eqType.
Implicit Types (cb : callback) (s : seq callback).

Lemma mem_set_add cb cb' s :
  (cb' \in set_add cb s) = (cb' == cb) || (cb' \in s).
Proof.
rewrite /set_add; case: ifP => [cbs|_]; last by rewrite in_cons.
by case: eqP => [->|].
Qed.

Lemma set_add_uniq cb s : uniq s -> uniq (set_add cb s).
Proof. by rewrite /set_add; case: ifP => //= ->. Qed.

Lemma set_add_idem cb s : set_add cb (set_add cb s) = set_add cb s.
Proof. by rewrite {1}/set_add mem_set_add eqxx. Qed.

End SetTheory.

(** ** [BayesianParameter]: dispatch and the natural-gradient update *)

Section ParametersTheory.

Variable F : realFieldType.
Variable fam : ExponentialFamily F.
Variable callback : eqType.
Variable world : Type.
Variable call : callback -> BayesianParameter fam callback -> world ->
                BayesianParameter fam callback * world.
Variable iter_order : seq callback -> seq callback.

Implicit Types (p : BayesianParameter fam callback) (w : world).
Implicit Types (cb : callback) (log : call_log fam callback).
Implicit Types (todo order : seq callback) (lrate : F) (v : seq F).

Lemma wf_init (st : Tensor F) (d1 d2 : dist fam) :
  wf (BayesianParameter_init callback st d1 d2).
Proof. by []. Qed.

(** [ConjugateBayesianParameter] has no abstract method left: the call of
    the class runs [__init__]. *)
Lemma ConjugateBayesianParameter_newE (d1 d2 : dist fam) :
  ConjugateBayesianParameter_new callback d1 d2
  = Ok (ConjugateBayesianParameter_init callback d1 d2).
Proof. by []. Qed.

Lemma wf_register cb p : wf p -> wf (register_callback cb p).
Proof. exact: set_add_uniq. Qed.

Lemma wf_store_stats st p : wf (store_stats st p) = wf p.
Proof. by []. Qed.

(** [store_stats] keeps the values of the statistics on both branches. *)
Lemma data_store_stats st p : data (_stats (store_stats st p)) = data st.
Proof. by rewrite /store_stats /=; case: (requires_grad st). Qed.

(** On tensors of the same length the two lines of the update go through
    and compute [posterior + lrate * (prior + stats - posterior)]. *)
Lemma new_nparams_same lrate p :
  size (natural_parameters (prior p))
  = size (natural_parameters (posterior p)) ->
  size (data (_stats p)) = size (natural_parameters (posterior p)) ->
  new_nparams lrate p
  = Ok (tadd (natural_parameters (posterior p))
          (tscale lrate
             (tsub (tadd (natural_parameters (prior p)) (data (_stats p)))
                   (natural_parameters (posterior p))))).
Proof.
move=> s1 s2; rewrite /new_nparams torch_add_same ?s1 ?s2 //=.
rewrite torch_sub_same ?size_tadd ?s1 ?s2 //=.
by rewrite torch_add_same // size_tscale size_tsub size_tadd ?s1 ?s2.
Qed.

(** *** The callbacks composed *)

Lemma run_callbacks_cons cb todo p w p1 w1 :
  call cb p w = (p1, w1) ->
  run_callbacks call (cb :: todo) p w = run_callbacks call todo p1 w1.
Proof. by rewrite /run_callbacks /= /apply_callback /= => ->. Qed.

Lemma found_cons cb todo p w p1 w1 :
  call cb p w = (p1, w1) ->
  found call (cb :: todo) p w = p :: found call todo p1 w1.
Proof. by rewrite /found /= /apply_callback /= => ->. Qed.

Lemma size_found todo p w : size (found call todo p w) = size todo.
Proof. by rewrite /found size_map size_belast size_scanl. Qed.

Lemma callbacks_run todo p w :
  keeps_callbacks call ->
  _callbacks (run_callbacks call todo p w).1 = _callbacks p.
Proof.
move=> kc; elim: todo p w => [|cb todo IH] p w //.
case ec: (call cb p w) => [p1 w1].
by rewrite (run_callbacks_cons _ ec) IH -(kc cb p w) ec.
Qed.

Lemma posterior_run todo p w :
  keeps_posterior call ->
  posterior (run_callbacks call todo p w).1 = posterior p.
Proof.
move=> kp; elim: todo p w => [|cb todo IH] p w //.
case ec: (call cb p w) => [p1 w1].
by rewrite (run_callbacks_cons _ ec) IH -(kp cb p w) ec.
Qed.

Lemma posterior_found todo p w :
  keeps_posterior call ->
  [seq posterior q | q <- found call todo p w]
  = nseq (size todo) (posterior p).
Proof.
move=> kp; elim: todo p w => [|cb todo IH] p w //.
case ec: (call cb p w) => [p1 w1].
by rewrite (found_cons _ ec) /= IH -(kp cb p w) ec.
Qed.

(** The loop of [dispatch], with callbacks that leave the set alone: it
    reaches the end, having applied the callbacks of [todo] in turn. *)
Lemma dispatch_loopE todo p w log :
  keeps_callbacks call ->
  dispatch_loop call (size (_callbacks p)) todo p w log
  = Ok (run_callbacks call todo p w,
        log ++ zip todo (found call todo p w)).
Proof.
move=> kc; elim: todo p w log => [|cb todo IH] p w log.
  by rewrite /= eqxx /run_callbacks /= cats0.
case ec: (call cb p w) => [p1 w1].
have ecb : _callbacks p1 = _callbacks p by rewrite -(kc cb p w) ec.
rewrite (run_callbacks_cons _ ec) (found_cons _ ec) /= eqxx /= ec.
by rewrite -ecb IH cat_rcons.
Qed.

Lemma dispatchE p w :
  keeps_callbacks call ->
  let order := iter_order (_callbacks p) in
  dispatch call iter_order p w
  = Ok (run_callbacks call order p w, zip order (found call order p w)).
Proof. by move=> kc; rewrite /dispatch dispatch_loopE. Qed.

(** The calls listed against an order are the elements of the order. *)
Lemma calls_of_zip cb order (qs : seq (BayesianParameter fam callback)) :
  size qs = size order -> calls_of cb (zip order qs) = count_mem cb order.
Proof.
elim: order qs => [|c order IH] [|q qs] //= [e].
by rewrite /calls_of /= -/(calls_of cb _) IH // eq_sym.
Qed.

(** An element of a set is visited once, any other never. *)
Lemma count_iter_order cb p :
  visits_once iter_order -> wf p ->
  count_mem cb (iter_order (_callbacks p)) = (cb \in _callbacks p).
Proof. by move=> vo up; rewrite (permP (vo _)) count_uniq_mem. Qed.

Lemma all_saw_zip v (d : dist fam) order
    (qs : seq (BayesianParameter fam callback)) :
  natural_parameters d = v ->
  [seq posterior q | q <- qs] = nseq (size order) d ->
  all_saw v (zip order qs).
Proof.
move=> ed; elim: order qs => [|c order IH] [|q qs] //= [e1 e2].
by rewrite e1 ed eqxx IH.
Qed.

(** [natural_grad_update], when the two lines of the update give [v] and
    the family takes [v]: the posterior is updated with [v], and the
    callbacks of the set are then applied in the order of the iteration. *)
Lemma natural_grad_updateP lrate p w v :
  keeps_callbacks call -> new_nparams lrate p = Ok v -> accepts fam v ->
  let order := iter_order (_callbacks p) in
  exists d,
    [/\ update_from_natural_parameters (posterior p) v = Ok d,
        natural_parameters d = v
      & natural_grad_update call iter_order lrate p w
        = Ok (run_callbacks call order (set_posterior d p) w,
              zip order (found call order (set_posterior d p) w))].
Proof.
move=> kc ev acc /=; have [d e1 e2] := acc (posterior p).
exists d; split=> //.
by rewrite /natural_grad_update ev /= e1 /= dispatchE.
Qed.

(** With callbacks that leave the posterior alone, the posterior holds [v]
    at the end. *)
Lemma natural_grad_update_posterior lrate p w v :
  keeps_callbacks call -> keeps_posterior call ->
  new_nparams lrate p = Ok v -> accepts fam v ->
  exists p' w' log,
    natural_grad_update call iter_order lrate p w = Ok (p', w', log)
    /\ natural_parameters (posterior p') = v.
Proof.
move=> kc kp ev acc; have [d [_ e2 e3]] := natural_grad_updateP w kc ev acc.
set r := run_callbacks _ _ _ _ in e3.
exists r.1, r.2, (zip (iter_order (_callbacks p))
                      (found call (iter_order (_callbacks p))
                             (set_posterior d p) w)).
by rewrite -surjective_pairing e3 /r posterior_run.
Qed.

End ParametersTheory.

Section ParametersClaims.

Variable F : realFieldType.
Variable fam : ExponentialFamily F.
Variable callback : eqType.
Variable world : Type.
Variable call : callback -> BayesianParameter fam callback -> world ->
                BayesianParameter fam callback * world.
Variable iter_order : seq callback -> seq callback.

Implicit Types (p : BayesianParameter fam callback) (w : world).
Implicit Types (cb : callback) (lrate : F) (v : seq F).

(** C1.  On natural parameters and statistics of the same length,
    [natural_grad_update(lrate)] leaves in the posterior the natural
    parameters [posterior + lrate * (prior + stats - posterior)]; after
    [store_stats(S)], the update with [lrate = 1] leaves [prior + S]. *)
Theorem natural_grad_update_rule lrate p w (S : Tensor F) :
  keeps_callbacks call -> keeps_posterior call ->
  let prior_nparams := natural_parameters (prior p) in
  let posterior_nparams := natural_parameters (posterior p) in
  let target :=
    tadd posterior_nparams
      (tscale lrate
         (tsub (tadd prior_nparams (data (stats p))) posterior_nparams)) in
  size prior_nparams = size posterior_nparams ->
  (size (data (stats p)) = size posterior_nparams ->
   accepts fam target ->
   exists p' w' log,
     natural_grad_update call iter_order lrate p w = Ok (p', w', log)
     /\ natural_parameters (posterior p') = target)
  /\
  (size (data S) = size posterior_nparams ->
   accepts fam (tadd prior_nparams (data S)) ->
   exists p' w' log,
     natural_grad_update call iter_order 1 (store_stats S p) w
       = Ok (p', w', log)
     /\ natural_parameters (posterior p') = tadd prior_nparams (data S)).
Proof.
move=> kc kp /= s1; split=> s2 acc.
  exact: (natural_grad_update_posterior iter_order w kc kp
            (new_nparams_same lrate s1 s2) acc).
have en : new_nparams 1 (store_stats S p)
          = Ok (tadd (natural_parameters (prior p)) (data S)).
  have s3 : size (data (_stats (store_stats S p)))
            = size (natural_parameters (posterior p)).
    by rewrite data_store_stats.
  rewrite (new_nparams_same 1 (p := store_stats S p) s1 s3).
  rewrite data_store_stats tadd_full_step //.
  by rewrite size_tadd /= ?s1 ?s2.
exact: (natural_grad_update_posterior iter_order w kc kp en acc).
Qed.

(** C8.  With two distinct callbacks registered, one [natural_grad_update]
    that gets as far as the posterior applies the callbacks of the set one
    after the other, in an order in which each of the two comes once; each
    call finds the updated natural parameters in the posterior. *)
Theorem two_callbacks_called_once lrate p w cb1 cb2 v :
  visits_once iter_order -> keeps_callbacks call -> keeps_posterior call ->
  wf p -> cb1 != cb2 ->
  let q := register_callback cb2 (register_callback cb1 p) in
  let order := iter_order (_callbacks q) in
  new_nparams lrate q = Ok v -> accepts fam v ->
  exists d,
    let q1 := set_posterior d q in
    let log := zip order (found call order q1 w) in
    [/\ update_from_natural_parameters (posterior q) v = Ok d,
        natural_grad_update call iter_order lrate q w
        = Ok (run_callbacks call order q1 w, log),
        count_mem cb1 order = 1%N /\ count_mem cb2 order = 1%N,
        calls_of cb1 log = 1%N /\ calls_of cb2 log = 1%N
      & all_saw v log].
Proof.
move=> vo kc kp up ne q order ev acc.
have [d [e1 e2 e3]] := natural_grad_updateP iter_order w kc ev acc.
have uq : wf q by do 2!apply: wf_register.
have c1 : count_mem cb1 order = 1%N.
  by rewrite (count_iter_order _ vo uq) /= !mem_set_add eqxx orbT.
have c2 : count_mem cb2 order = 1%N.
  by rewrite (count_iter_order _ vo uq) /= !mem_set_add eqxx.
exists d; split=> //; first by rewrite !calls_of_zip ?size_found.
by apply: (all_saw_zip e2); rewrite posterior_found.
Qed.

(** C10.  Registering a callback a second time changes nothing: the
    callback is in the set once, and one [natural_grad_update] applies it
    once. *)
Theorem register_callback_twice lrate p w cb v :
  visits_once iter_order -> keeps_callbacks call -> wf p ->
  let q := register_callback cb (register_callback cb p) in
  let order := iter_order (_callbacks q) in
  new_nparams lrate q = Ok v -> accepts fam v ->
  q = register_callback cb p
  /\ exists d,
       let q1 := set_posterior d q in
       let log := zip order (found call order q1 w) in
       [/\ update_from_natural_parameters (posterior q) v = Ok d,
           natural_grad_update call iter_order lrate q w
           = Ok (run_callbacks call order q1 w, log),
           count_mem cb order = 1%N
         & calls_of cb log = 1%N].
Proof.
move=> vo kc up q order ev acc; split.
  by rewrite /q /register_callback /= set_add_idem.
have [d [e1 e2 e3]] := natural_grad_updateP iter_order w kc ev acc.
have uq : wf q by do 2!apply: wf_register.
have c1 : count_mem cb order = 1%N.
  by rewrite (count_iter_order _ vo uq) /= !mem_set_add eqxx.
by exists d; split=> //; rewrite calls_of_zip ?size_found.
Qed.

End ParametersClaims.

(** ** [NormalGamma]: standard and natural parameters *)

Section NormalGammaTheory.

Variable F : realFieldType.

Import NormalGamma.

Implicit Types (p : NormalGammaStdParams F) (d : NormalGamma F).
Implicit Types (v : seq F).

Lemma size_natural_parameters d :
  size (mean (params d)) = size (rates (params d)) ->
  size (natural_parameters d) = (2 * size (mean (params d)) + 2)%N.
Proof.
move=> e; rewrite /natural_parameters !size_cat /= size_tscale size_tsub.
  by rewrite size_tscale size_map.
by rewrite size_tscale size_map mul2n -addnn addnA.
Qed.

Lemma from_natural_parametersK p :
  scale p != 0 -> size (mean p) = size (rates p) ->
  from_natural_parameters (natural_parameters (mkNormalGamma p)) = Ok p.
Proof.
case: p => m k a b /= k0 e.
have sz :=
  size_natural_parameters (d := mkNormalGamma (mkStdParams m k a b)) e.
rewrite /from_natural_parameters sz ltnNge leq_addl /= addnK mulKn //.
rewrite /natural_parameters [params _]/= [mean _]/= [scale _]/=.
rewrite [rates _]/= [shape _]/=.
set B := tsub _ b.
have sB : size B = size m by rewrite size_tsub size_tscale size_map.
have sAB : size (tscale k m ++ B) = (2 * size m)%N.
  by rewrite size_cat size_tscale sB mul2n addnn.
set V := _ ++ _.
have eV : V = (tscale k m ++ B) ++ [:: - half F * k; a - half F].
  by rewrite /V -catA.
have tk1 : take (size m) V = tscale k m.
  by rewrite /V take_size_cat // size_tscale.
have tk2 : take (2 * size m) V = tscale k m ++ B.
  by rewrite eV -sAB take_size_cat.
have n3 : V`_(2 * size m) = - half F * k.
  by rewrite eV -sAB nth_cat ltnn subnn.
have n4 : V`_(2 * size m + 2 - 1) = a - half F.
  by rewrite eV -sAB nth_cat addn2 subn1 /= ltnNge leqnSn /= subSnn.
rewrite tk1 tk2 n3 n4 drop_size_cat ?size_tscale //.
rewrite neg2_neg_half subrK tdiv_tscale //.
by rewrite /B mulNr rates_back.
Qed.

Lemma tscale_tdiv (c : F) (x : seq F) : c != 0 -> tscale c (tdiv x c) = x.
Proof.
move=> c0; rewrite /tdiv /tscale -map_comp -[RHS]map_id.
by apply: eq_map => a /=; rewrite mulrC divfK.
Qed.

Lemma second_block_back (c : F) (x y : seq F) :
  size x = size y ->
  tsub (tscale (- c) (tsquare x)) (tsub (tneg y) (tscale c (tsquare x))) = y.
Proof.
rewrite /tsub /tneg /tscale /tsquare; elim: x y => [|a x IH] [|b y] //= [e].
rewrite (IH _ e); congr (_ :: _).
by ring.
Qed.

Lemma neg_half_neg2 (c : F) : - half F * (-2 * c) = c.
Proof. by rewrite mulNr mulNr mulrN opprK mulrCA two_half. Qed.

Lemma natural_parameters_split v :
  ~~ odd (size v) -> (1 < size v)%N ->
  let n := ((size v - 2) %/ 2)%N in
  [/\ size v = (2 * n + 2)%N
    & v = take n v ++ drop n (take (2 * n) v)
          ++ [:: v`_(size v - 2); v`_(size v - 1)]].
Proof.
move=> ev s2 n.
have esz : size v = (2 * n + 2)%N.
  rewrite /n mulnC divnK ?subnK // dvdn2.
  by rewrite oddB // addbF.
split=> //.
have l1 : (2 * n < size v)%N by rewrite esz addn2 ltnS leqnSn.
have l2 : (2 * n + 1 < size v)%N by rewrite esz ltn_add2l.
have -> : (size v - 2 = 2 * n)%N by rewrite esz addnK.
have -> : (size v - 1 = 2 * n + 1)%N by rewrite esz -addnBA.
rewrite catA -[LHS](cat_take_drop (2 * n) v); congr (_ ++ _).
  rewrite -[LHS](cat_take_drop n (take (2 * n) v)) take_takel //.
  by rewrite mul2n -addnn leq_addr.
rewrite (drop_nth 0 l1) -[(2 * n).+1]addn1 (drop_nth 0 l2) drop_oversize //.
by rewrite esz -addnS.
Qed.

Lemma natural_parametersK v :
  ~~ odd (size v) -> (1 < size v)%N -> v`_(size v - 2) != 0 ->
  exists2 p, from_natural_parameters v = Ok p
           & natural_parameters (mkNormalGamma p) = v.
Proof.
move=> ev s2 c0; have [esz ev'] := natural_parameters_split ev s2.
rewrite /from_natural_parameters ltnNge s2 /=.
set n := ((size v - 2) %/ 2)%N in esz ev' *.
set A := take n v in ev' *; set B := drop n _ in ev' *.
set c := v`_(size v - 2) in c0 ev' *; set a := v`_(size v - 1) in ev' *.
eexists; first by [].
have s0 : -2 * c != 0 by rewrite mulf_neq0 // oppr_eq0 pnatr_eq0.
rewrite /natural_parameters /= tscale_tdiv // addrK mulNr.
rewrite second_block_back -?mulNr ?neg_half_neg2 //.
rewrite size_map size_take size_drop size_take esz.
have -> : (n < 2 * n + 2)%N.
  by rewrite mul2n -addnn -addnA -[X in (X < _)%N]addn0 ltn_add2l addn2.
by rewrite addn2 ltnS leqnSn mul2n -addnn addnK.
Qed.

(** The family takes every vector of even length with a non-zero entry
    before the last one. *)
Lemma family_accepts v :
  ~~ odd (size v) -> (1 < size v)%N -> v`_(size v - 2) != 0 ->
  accepts (family F) v.
Proof.
move=> ev s2 c0 d; have [p e1 e2] := natural_parametersK ev s2 c0.
by exists (mkNormalGamma p); rewrite //= /update_from_natural_parameters e1.
Qed.

(** C5.  For valid standard parameters, [update_from_natural_parameters]
    applied to the result of [natural_parameters] gives back the mean, the
    scale, the shape and the rates, whatever the distribution that is
    updated held before. *)
Theorem NormalGamma_round_trip d0 d :
  valid (params d) ->
  update_from_natural_parameters d0 (natural_parameters d) = Ok d.
Proof.
case: d => p /= /and4P [k0 _ _ /eqP e].
by rewrite /update_from_natural_parameters from_natural_parametersK ?lt0r_neq0.
Qed.

End NormalGammaTheory.

(** ** The generalized subspace models *)

Section GSMTheory.

Variable F : realFieldType.
Variables N K D P : nat.
Variable pk : GSM.priors_package F K D.

Import GSM.

Implicit Types (data : 'M[F]_(N, P + 1)).

(** *** Tensor operations against matrix algebra *)

Lemma _trace_arrayE (T : 'I_N -> 'M[F]_D) i : _trace_array T 0 i = \tr (T i).
Proof. by rewrite mxE. Qed.

Lemma row_bmul_sum (T : 'I_N -> 'M[F]_D) (A : 'M[F]_(N, D)) i :
  row i (bmul_sum T A) = (T i *m (row i A)^T)^T.
Proof.
apply/rowP => j; rewrite !mxE.
by apply: eq_bigr => k _; rewrite !mxE.
Qed.

Lemma row_sub_line (A : 'M[F]_(N, D)) (v : 'rV[F]_D) i :
  row i (sub_line A v) = row i A - v.
Proof. by apply/rowP => j; rewrite !mxE. Qed.

Lemma row_flatten_items n (T : 'I_N -> 'M[F]_n) i :
  row i (flatten_items T) = mxvec (T i).
Proof. by apply/rowP => j; rewrite !mxE. Qed.

Lemma sum_first_bmul_sum (T : 'I_N -> 'M[F]_D) (A : 'M[F]_(N, D)) :
  sum_first (bmul_sum T A) = \sum_i (T i *m (row i A)^T)^T.
Proof.
apply/rowP => j; rewrite mxE summxE.
by apply: eq_bigr => i _; rewrite -row_bmul_sum [RHS]mxE.
Qed.

(** The natural parameters given to the latent posterior of item [i] by
    the loop of [latent_posteriors]. *)
Lemma tnth_assign mode (self : GeneralizedSubspaceModel N P pk mode)
    l_posts acc_stats i :
  nfc_natural_parameters
    (tnth (assign_natural_parameters self l_posts acc_stats) i)
  = nfc_natural_parameters (value (latent_prior self)) + row i acc_stats.
Proof. by rewrite tnth_mktuple. Qed.

(** C2.  In the full-Hessian model, the latent posterior of item [i] gets
    the natural parameters of the standard Normal latent prior plus
    [concat(-(Hess_i (opt_i - m)) W^T, 0.5 vec(tr(Hess_i) U + W Hess_i W^T))],
    with [m] and [W] the first moments of the posteriors of the global mean
    and of the subspace, and [U] the covariance of the latter. *)
Theorem Full_latent_posteriors_natural_parameters
    (self : GeneralizedSubspaceModel N P pk full) data (cache : bool)
    (i : 'I_N) :
  value (latent_prior self) = new_normal_full pk 0 1%:M ->
  let stats := stats_of data in
  let counts := counts_of data in
  let opt := argmax (llh_func self) stats counts in
  let Hess : 'I_N -> 'M[F]_D :=
    hessian (llh_func self) opt stats counts full in
  let m := (moments pk (posterior (mean self))).1 in
  let W := (mn_moments pk (posterior (subspace self))).1 in
  let U := cov (posterior (subspace self)) in
  nfc_natural_parameters
    (tnth (posts_of (Full_latent_posteriors self data cache)) i)
  = nfc_of_std pk 0 1%:M
    + row_mx ((- (Hess i *m (row i opt - m)^T))^T *m W^T)
             (half F *: mxvec (\tr (Hess i) *: U + W *m Hess i *m W^T)).
Proof.
move=> elat /=.
have -> : posts_of (Full_latent_posteriors self data cache)
          = (Full_latent_posteriors_cache self data).1.
  rewrite /Full_latent_posteriors.
  by case: (Full_latent_posteriors_cache _ _) => l c; case: cache.
rewrite /Full_latent_posteriors_cache /_extract_moments.
case: (moments _ _) => m mm; case: (mn_moments _ _) => W WW /=.
rewrite tnth_assign elat /=; congr (_ + _).
rewrite row_row_mx row_mul linearZ /= row_flatten_items _trace_arrayE.
by rewrite !linearN /= row_bmul_sum row_sub_line.
Qed.


(** *** The forward pass and its cache *)

Lemma Full_posts_of (self : GeneralizedSubspaceModel N P pk full) data cache :
  posts_of (Full_latent_posteriors self data cache)
  = (Full_latent_posteriors_cache self data).1.
Proof.
rewrite /Full_latent_posteriors.
by case: (Full_latent_posteriors_cache _ _) => l c; case: cache.
Qed.

Lemma Full_forward_cache (self : GeneralizedSubspaceModel N P pk full) data :
  let c := (Full_latent_posteriors_cache self data).2 in
  cache (Full_expected_log_likelihood self data).2
  = Some (mkQuadCache c (c_H c *m c_W c)).
Proof.
rewrite /Full_expected_log_likelihood.
by case: (Full_latent_posteriors_cache _ _) => l c.
Qed.

(** C3.  In the full-Hessian model, after the forward pass on a batch,
    [accumulate] returns for the global mean the concatenation of
    [- sum_i Hess_i (opt_i - hW_i)] and of [0.5 sum_i Hess_i] flattened,
    [hW = H @ W] being the one of the forward pass. *)
Theorem Full_accumulate_mean_stats
    (self : GeneralizedSubspaceModel N P pk full) data :
  let stats := stats_of data in
  let counts := counts_of data in
  let opt := argmax (llh_func self) stats counts in
  let Hess : 'I_N -> 'M[F]_D :=
    hessian (llh_func self) opt stats counts full in
  let W := (mn_moments pk (posterior (subspace self))).1 in
  let H := stack_first pk (posts_of (Full_latent_posteriors self data true)) in
  let hW := H *m W in
  let self' := (Full_expected_log_likelihood self data).2 in
  exists2 acc,
    Full_accumulate self' data = Ok acc
    & mean_stats acc
      = row_mx (- \sum_i (Hess i *m (row i opt - row i hW)^T)^T)
               (half F *: mxvec (\sum_i Hess i)).
Proof.
move=> /=; rewrite /Full_accumulate Full_forward_cache Full_posts_of.
eexists; first by [].
rewrite /Full_latent_posteriors_cache /_extract_moments.
case: (moments _ _) => m mm; case: (mn_moments _ _) => W WW /=.
rewrite linearZ /= sum_first_bmul_sum; congr (row_mx (- _) _).
by apply: eq_bigr => i _; rewrite linearB.
Qed.


(** *** The three modes on Hessians that agree *)

Section Agreement.

Variable lf : LikelihoodFunction F N D P.
Variable sub : BayesianParameter (MatrixNormalPrior F K D).
Variable mn : BayesianParameter (NormalFullCovariancePrior F D).
Variable lat : ConstantParameter (NormalFullCovariancePrior F K).
Variable cF : option (quad_cache N P pk full).
Variable cD : option (quad_cache N P pk diagonal).
Variable cS : option (quad_cache N P pk scalar).
Variable data : 'M[F]_(N, P + 1).

Let gF := mkModel lf sub mn lat cF.
Let gD := mkModel lf sub mn lat cD.
Let gS := mkModel lf sub mn lat cS.

Hypothesis agree : hessians_agree lf data.

Let opt := argmax lf (stats_of data) (counts_of data).
Let HessF : 'I_N -> 'M[F]_D :=
  hessian lf opt (stats_of data) (counts_of data) full.
Let HessD : 'M[F]_(N, D) :=
  hessian lf opt (stats_of data) (counts_of data) diagonal.
Let HessS : 'rV[F]_N :=
  hessian lf opt (stats_of data) (counts_of data) scalar.

Let full_diag i a b : HessF i a b = if a == b then HessD i a else 0.
Proof. by case: agree => h _; apply: h. Qed.

Let diag_scalar i a : HessD i a = HessS 0 i.
Proof. by case: agree => _; apply. Qed.

Lemma HessF_diag i :
  HessF i = \matrix_(a, b) (HessD i b * (1%:M : 'M[F]_D) a b).
Proof.
apply/matrixP => a b; rewrite full_diag !mxE.
by case: eqP => [->|_]; rewrite ?mulr1 ?mulr0.
Qed.

Lemma bmul_sum_HessF (A : 'M[F]_(N, D)) : bmul_sum HessF A = emul HessD A.
Proof.
apply/matrixP => i j; rewrite !mxE (bigD1 j) //= full_diag eqxx.
rewrite big1 ?addr0 // => k /negPf nkj.
by rewrite full_diag eq_sym nkj mul0r.
Qed.

Lemma emul_HessD (A : 'M[F]_(N, D)) : emul HessD A = lscale_lines HessS A.
Proof. by apply/matrixP => i j; rewrite !mxE diag_scalar. Qed.

Lemma trace_HessF : _trace_array HessF = sum_last HessD.
Proof.
apply/rowP => i; rewrite !mxE.
by apply: eq_bigr => d _; rewrite full_diag eqxx.
Qed.

Lemma trace_HessD : sum_last HessD = \row_i (HessS 0 i * D%:R).
Proof.
apply/rowP => i; rewrite !mxE (eq_bigr (fun=> HessS 0 i)).
  by move=> d _; rewrite diag_scalar.
by rewrite sumr_const card_ord mulr_natr.
Qed.

Lemma mul_HessF (W : 'M[F]_(K, D)) i :
  W *m HessF i = \matrix_(a, b) (HessD i b * W a b).
Proof.
apply/matrixP => a b; rewrite !mxE (bigD1 b) //= full_diag eqxx.
rewrite big1 ?addr0 1?mulrC // => k /negPf nkb.
by rewrite full_diag nkb mulr0.
Qed.

Lemma scale_HessD (W : 'M[F]_(K, D)) i :
  \matrix_(a, b) (HessD i b * W a b) = HessS 0 i *: W.
Proof. by apply/matrixP => a b; rewrite !mxE diag_scalar. Qed.

(** The caches of the three forward passes hold the same tensors, the
    Hessians apart. *)
Lemma Diagonal_cache_Full :
  let c1 := (Full_latent_posteriors_cache gF data).2 in
  let c2 := (Diagonal_latent_posteriors_cache gD data).2 in
  [/\ (Full_latent_posteriors_cache gF data).1
      = (Diagonal_latent_posteriors_cache gD data).1,
      c_tr_hessians c1 = c_tr_hessians c2,
      c_H c1 = c_H c2 /\ c_HH c1 = c_HH c2,
      c_opt c1 = c_opt c2 /\ c_m c1 = c_m c2
    & c_W c1 = c_W c2].
Proof.
rewrite /Full_latent_posteriors_cache /Diagonal_latent_posteriors_cache.
rewrite /_extract_moments /=.
case: (moments _ _) => m mm; case: (mn_moments _ _) => W WW /=.
rewrite -/opt -/HessF -/HessD trace_HessF bmul_sum_HessF.
have -> : flatten_items (fun i => sum_last HessD 0 i *: cov (posterior sub)
                                  + W *m HessF i *m W^T)
          = flatten_items (fun i => sum_last HessD 0 i *: cov (posterior sub)
                                    + (\matrix_(a, b) (HessD i b * W a b))
                                      *m W^T).
  by apply/matrixP => i x; rewrite !mxE mul_HessF.
by [].
Qed.


Lemma Scalar_cache_Diagonal :
  let c2 := (Diagonal_latent_posteriors_cache gD data).2 in
  let c3 := (Scalar_latent_posteriors_cache gS data).2 in
  [/\ (Diagonal_latent_posteriors_cache gD data).1
      = (Scalar_latent_posteriors_cache gS data).1,
      c_tr_hessians c2 = c_tr_hessians c3,
      c_H c2 = c_H c3 /\ c_HH c2 = c_HH c3,
      c_opt c2 = c_opt c3 /\ c_m c2 = c_m c3
    & c_W c2 = c_W c3].
Proof.
rewrite /Diagonal_latent_posteriors_cache /Scalar_latent_posteriors_cache.
rewrite /_extract_moments /=.
case: (moments _ _) => m mm; case: (mn_moments _ _) => W WW /=.
rewrite -/opt -/HessD -/HessS -trace_HessD emul_HessD.
have -> : flatten_items (fun i => sum_last HessD 0 i *: cov (posterior sub)
                                  + (\matrix_(a, b) (HessD i b * W a b))
                                    *m W^T)
          = flatten_items (fun i => sum_last HessD 0 i *: cov (posterior sub)
                                    + (HessS 0 i *: W) *m W^T).
  by apply/matrixP => i x; rewrite !mxE scale_HessD.
by [].
Qed.

Lemma Full_cache_hessians :
  c_hessians (Full_latent_posteriors_cache gF data).2 = HessF
  /\ c_opt (Full_latent_posteriors_cache gF data).2 = opt.
Proof.
rewrite /Full_latent_posteriors_cache /_extract_moments /=.
by case: (moments _ _) => m mm; case: (mn_moments _ _) => W WW /=.
Qed.

Lemma Diagonal_cache_hessians :
  c_hessians (Diagonal_latent_posteriors_cache gD data).2 = HessD.
Proof.
rewrite /Diagonal_latent_posteriors_cache /_extract_moments /=.
by case: (moments _ _) => m mm; case: (mn_moments _ _) => W WW /=.
Qed.

Lemma Scalar_cache_hessians :
  c_hessians (Scalar_latent_posteriors_cache gS data).2 = HessS.
Proof.
rewrite /Scalar_latent_posteriors_cache /_extract_moments /=.
by case: (moments _ _) => m mm; case: (mn_moments _ _) => W WW /=.
Qed.

Lemma Diagonal_forward_cache (self : GeneralizedSubspaceModel N P pk diagonal) :
  let c := (Diagonal_latent_posteriors_cache self data).2 in
  cache (Diagonal_expected_log_likelihood self data).2
  = Some (mkQuadCache c (c_H c *m c_W c)).
Proof.
rewrite /Diagonal_expected_log_likelihood.
by case: (Diagonal_latent_posteriors_cache _ _) => l c.
Qed.

Lemma Scalar_forward_cache (self : GeneralizedSubspaceModel N P pk scalar) :
  let c := (Scalar_latent_posteriors_cache self data).2 in
  cache (Scalar_expected_log_likelihood self data).2
  = Some (mkQuadCache c (c_H c *m c_W c)).
Proof.
rewrite /Scalar_expected_log_likelihood.
by case: (Scalar_latent_posteriors_cache _ _) => l c.
Qed.

Lemma Diagonal_posts_of (self : GeneralizedSubspaceModel N P pk diagonal) b :
  posts_of (Diagonal_latent_posteriors self data b)
  = (Diagonal_latent_posteriors_cache self data).1.
Proof.
rewrite /Diagonal_latent_posteriors.
by case: (Diagonal_latent_posteriors_cache _ _) => l c; case: b.
Qed.

Lemma Scalar_posts_of (self : GeneralizedSubspaceModel N P pk scalar) b :
  posts_of (Scalar_latent_posteriors self data b)
  = (Scalar_latent_posteriors_cache self data).1.
Proof.
rewrite /Scalar_latent_posteriors.
by case: (Scalar_latent_posteriors_cache _ _) => l c; case: b.
Qed.

(** The three modes give the same latent posteriors and the same
    accumulated statistics. *)
Lemma three_modes_same :
  [/\ posts_of (Full_latent_posteriors gF data false)
      = posts_of (Diagonal_latent_posteriors gD data false),
      posts_of (Diagonal_latent_posteriors gD data false)
      = posts_of (Scalar_latent_posteriors gS data false),
      Full_accumulate (Full_expected_log_likelihood gF data).2 data
      = Diagonal_accumulate (Diagonal_expected_log_likelihood gD data).2 data
    & Diagonal_accumulate (Diagonal_expected_log_likelihood gD data).2 data
      = Scalar_accumulate (Scalar_expected_log_likelihood gS data).2 data].
Proof.
have [p12 t12 [h12 hh12] [o12 m12] w12] := Diagonal_cache_Full.
have [p23 t23 [h23 hh23] [o23 m23] w23] := Scalar_cache_Diagonal.
have [eF eo] := Full_cache_hessians.
have eD := Diagonal_cache_hessians; have eS := Scalar_cache_hessians.
split.
- by rewrite Full_posts_of Diagonal_posts_of.
- by rewrite Diagonal_posts_of Scalar_posts_of.
- rewrite /Full_accumulate /Diagonal_accumulate.
  rewrite Full_forward_cache Diagonal_forward_cache /=.
  rewrite eF eD t12 h12 hh12 o12 m12 w12 bmul_sum_HessF.
  rewrite [(_ *: _^T)^T]linearZ /= trmxK [mxvec (_ *: _)]linearZ /=.
  congr (Ok (mkAccumulated (row_mx _ (_ *: mxvec _)) _)).
  by apply: eq_bigr => i _; rewrite HessF_diag.
rewrite /Diagonal_accumulate /Scalar_accumulate.
rewrite Diagonal_forward_cache Scalar_forward_cache /=.
rewrite eD eS t23 h23 hh23 o23 m23 w23 emul_HessD.
congr (Ok (mkAccumulated (row_mx _ (_ *: mxvec _)) _)).
by apply: eq_bigr => i _; apply/matrixP => a b; rewrite !mxE diag_scalar.
Qed.

End Agreement.
End GSMTheory.

(** C4.  On the same inputs and with Hessians that agree across the
    modes, the full, diagonal and scalar models give the same latent
    posteriors and, after their forward pass, the same statistics for the
    global mean and for the subspace.  This holds whatever the dimensions
    [K] of the latent space and [D] of the parameter space are, hence for a
    latent space of dimension one. *)
Theorem modes_agree (F : realFieldType) (N K D P : nat)
    (pk : GSM.priors_package F K D)
    (lf : GSM.LikelihoodFunction F N D P)
    (sub : GSM.BayesianParameter (GSM.MatrixNormalPrior F K D))
    (mn : GSM.BayesianParameter (GSM.NormalFullCovariancePrior F D))
    (lat : GSM.ConstantParameter (GSM.NormalFullCovariancePrior F K))
    (cF : option (GSM.quad_cache N P pk full))
    (cD : option (GSM.quad_cache N P pk diagonal))
    (cS : option (GSM.quad_cache N P pk scalar))
    (data : 'M[F]_(N, P + 1)) :
  GSM.hessians_agree lf data ->
  let gF := GSM.mkModel lf sub mn lat cF in
  let gD := GSM.mkModel lf sub mn lat cD in
  let gS := GSM.mkModel lf sub mn lat cS in
  [/\ GSM.posts_of (GSM.Full_latent_posteriors gF data false)
      = GSM.posts_of (GSM.Diagonal_latent_posteriors gD data false),
      GSM.posts_of (GSM.Diagonal_latent_posteriors gD data false)
      = GSM.posts_of (GSM.Scalar_latent_posteriors gS data false),
      GSM.Full_accumulate (GSM.Full_expected_log_likelihood gF data).2 data
      = GSM.Diagonal_accumulate
          (GSM.Diagonal_expected_log_likelihood gD data).2 data
    & GSM.Diagonal_accumulate
        (GSM.Diagonal_expected_log_likelihood gD data).2 data
      = GSM.Scalar_accumulate
          (GSM.Scalar_expected_log_likelihood gS data).2 data].
Proof. by move=> agree; apply: three_modes_same. Qed.

(** When the latent space and the parameter space both have dimension one,
    the agreement of the Hessians is the equality of the one entry of the
    three outputs, item by item. *)
Lemma hessians_agree_dim1 (F : realFieldType) (N P : nat)
    (lf : GSM.LikelihoodFunction F N 1 P) (data : 'M[F]_(N, P + 1)) :
  let stats := GSM.stats_of data in
  let counts := GSM.counts_of data in
  let opt := GSM.argmax lf stats counts in
  (forall i,
     (GSM.hessian lf opt stats counts full : 'I_N -> 'M[F]_1) i 0 0
     = (GSM.hessian lf opt stats counts diagonal : 'M[F]_(N, 1)) i 0
     /\ (GSM.hessian lf opt stats counts diagonal : 'M[F]_(N, 1)) i 0
        = (GSM.hessian lf opt stats counts scalar : 'rV[F]_N) 0 i) ->
  GSM.hessians_agree lf data.
Proof.
move=> /= h; split=> [i a b|i a]; rewrite !ord1 ?eqxx; by case: (h i).
Qed.

(** C9.  [sufficient_statistics] returns its argument. *)
Theorem sufficient_statistics_identity (T : Type) (data : T) :
  GSM.sufficient_statistics data = data.
Proof. by []. Qed.

(** ** The constructors selected by a string *)

Section Create.

Variable F : realFieldType.
Variables N K D P : nat.
Variable pk : GSM.priors_package F K D.
Variable llh_func : GSM.LikelihoodFunction F N D P.
Variables (mean_subspace randn : 'M[F]_(K, D)) (global_mean : 'rV[F]_D).
Variables noise_std prior_strength : F.

(** The [create] of each of the three classes computes the densities and
    ends in the constructor, whose first line raises. *)
Lemma create_cls_raises (mode : hessian_mode) :
  GSM.create_cls pk mode llh_func mean_subspace global_mean noise_std
                 prior_strength randn
  = Raise (TypeError "Can't instantiate abstract class BayesianParameter").
Proof. by []. Qed.

(** C7.  [GeneralizedSubspaceModel.create] raises [ValueError], without a
    model, on a string other than ["full"], ["diagonal"] and ["scalar"].
    On each of these three it calls the [create] of the class of that
    name, which ends in the constructor, where the call
    [BayesianParameter(prior, posterior)] raises [TypeError]: no model of
    any of the three classes is returned. *)
Theorem create_by_hessian_type :
  let create := GSM.create (P := P) pk llh_func mean_subspace global_mean
                           noise_std prior_strength in
  let abstract :=
    TypeError "Can't instantiate abstract class BayesianParameter" in
  [/\ create "full"%string randn = Raise abstract,
      create "diagonal"%string randn = Raise abstract,
      create "scalar"%string randn = Raise abstract
    & forall hessian_type : string,
        hessian_type <> "full"%string ->
        hessian_type <> "diagonal"%string ->
        hessian_type <> "scalar"%string ->
        create hessian_type randn
        = Raise (ValueError (String.append "Unknown hessian type: "
                                           (quoted hessian_type)))].
Proof.
split; rewrite /GSM.create ?create_cls_raises //.
move=> ht /String.eqb_neq nf /String.eqb_neq nd /String.eqb_neq ns.
by rewrite nf nd ns.
Qed.

End Create.

Section NormalSetCreate.

Variables (tensor scalar conf : Type).
Variable tensorconf_of : tensor -> conf.
Variable detach : tensor -> tensor.
Variable JointConjugateBayesianParameters : Type.
Variable _default_fullcov_param :
  tensor -> tensor -> scalar -> conf ->
  result JointConjugateBayesianParameters.
Variables _default_diagcov_param _default_isocov_param :
  tensor -> tensor -> nat -> scalar -> scalar -> conf ->
  result JointConjugateBayesianParameters.

Let create := NormalSet.create tensorconf_of detach _default_fullcov_param
                _default_diagcov_param _default_isocov_param.

(** A string occurs in itself: the test [cov_type not in cov_type] never
    holds. *)
Lemma prefix_refl (s : string) : String.prefix s s = true.
Proof.
by elim: s => //= a s ->; case: (Ascii.ascii_dec a a).
Qed.

Lemma str_in_refl (s : string) : str_in s s.
Proof.
rewrite /str_in; case: s => //= a s.
by rewrite prefix_refl; case: Ascii.ascii_dec.
Qed.

Lemma dict_get_cons (V : Type) k' (v : V) d k :
  dict_get ((k', v) :: d) k = if String.eqb k' k then Ok v else dict_get d k.
Proof. by []. Qed.

(** What [create] does with a string that is not a key of
    [_default_param]. *)
Lemma create_unknown_key mean cov size prior_strength noise_std cov_type
    shared_cov :
  cov_type <> "full"%string -> cov_type <> "diagonal"%string ->
  cov_type <> "isotropic"%string ->
  create mean cov size prior_strength noise_std cov_type shared_cov
  = Raise (KeyError cov_type).
Proof.
move=> nf nd ni.
have sym a b : a <> b -> String.eqb b a = false.
  by move=> ne; apply/String.eqb_neq => e; apply: ne.
rewrite /create /NormalSet.create str_in_refl /NormalSet._default_param.
by rewrite 3!{1}dict_get_cons !sym.
Qed.

(** C6.  On the covariance type ["cubic"], [NormalSet.create] raises
    [KeyError] from the look-up in [_default_param], where
    [UnknownCovarianceType] is announced. *)
Theorem NormalSet_create_cubic mean cov size prior_strength noise_std
    shared_cov :
  create mean cov size prior_strength noise_std "cubic"%string shared_cov
  = Raise (KeyError "cubic").
Proof. by apply: create_unknown_key. Qed.

(** With ["full"], the helper of four parameters is called with six
    arguments. *)
Lemma create_full mean cov size prior_strength noise_std shared_cov :
  raises (create mean cov size prior_strength noise_std "full"%string
                 shared_cov).
Proof. by []. Qed.

End NormalSetCreate.

(** ** The theorems on the concrete instances *)

Lemma natural_grad_update_rule_witness :
  (exists p' w' log,
     natural_grad_update ex_call id (1 / 2) ex_param [::] = Ok (p', w', log)
     /\ natural_parameters (posterior p')
        = [:: 1; - (3 / 2); - (3 / 4); 1 / 2])
  /\
  (exists p' w' log,
     natural_grad_update ex_call id 1 (store_stats ex_stats ex_param) [::]
       = Ok (p', w', log)
     /\ natural_parameters (posterior p')
        = tadd (natural_parameters (prior ex_param)) (data ex_stats)).
Proof.
have kc : keeps_callbacks ex_call by [].
have kp : keeps_posterior ex_call by [].
have s1 : size (natural_parameters (prior ex_param))
          = size (natural_parameters (posterior ex_param)) by [].
have [h1 h2] :=
  natural_grad_update_rule id (1 / 2) [::] ex_stats kc kp s1.
split.
  have e : tadd (natural_parameters (posterior ex_param))
             (tscale (1 / 2)
                (tsub (tadd (natural_parameters (prior ex_param))
                            (data (stats ex_param)))
                      (natural_parameters (posterior ex_param))))
           = [:: 1; - (3 / 2); - (3 / 4); 1 / 2].
    by apply/eqP; vm_compute.
  rewrite -e; apply: h1; first by [].
  by apply: family_accepts; vm_compute.
apply: h2; first by [].
by apply: family_accepts; vm_compute.
Defined.

Lemma two_callbacks_called_once_witness :
  let q := register_callback 2%N (register_callback 1%N ex_param) in
  let order := _callbacks q in
  let v : seq rat := [:: 0; - 1; - (1 / 2); 1 / 2] in
  exists d,
    let q1 := set_posterior d q in
    let log := zip order (found ex_call order q1 [::]) in
    [/\ update_from_natural_parameters (posterior q) v = Ok d,
        natural_grad_update ex_call id 1 q [::]
        = Ok (run_callbacks ex_call order q1 [::], log),
        count_mem 1%N order = 1%N /\ count_mem 2%N order = 1%N,
        calls_of 1%N log = 1%N /\ calls_of 2%N log = 1%N
      & all_saw v log].
Proof.
have vo : visits_once (id : seq nat -> seq nat) by move=> s; exact: perm_refl.
have kc : keeps_callbacks ex_call by [].
have kp : keeps_posterior ex_call by [].
have up : wf ex_param by [].
have ne : 1%N != 2%N by [].
apply: (two_callbacks_called_once [::] vo kc kp up ne).
  by rewrite new_nparams_same //; congr (Ok _); apply/eqP; vm_compute.
by apply: family_accepts; vm_compute.
Defined.

Lemma register_callback_twice_witness :
  let q := register_callback 1%N (register_callback 1%N ex_param) in
  let order := _callbacks q in
  let v : seq rat := [:: 0; - 1; - (1 / 2); 1 / 2] in
  q = register_callback 1%N ex_param
  /\ exists d,
       let q1 := set_posterior d q in
       let log := zip order (found ex_call order q1 [::]) in
       [/\ update_from_natural_parameters (posterior q) v = Ok d,
           natural_grad_update ex_call id 1 q [::]
           = Ok (run_callbacks ex_call order q1 [::], log),
           count_mem 1%N order = 1%N
         & calls_of 1%N log = 1%N].
Proof.
have vo : visits_once (id : seq nat -> seq nat) by move=> s; exact: perm_refl.
have kc : keeps_callbacks ex_call by [].
have up : wf ex_param by [].
apply: (register_callback_twice [::] vo kc up).
  by rewrite new_nparams_same //; congr (Ok _); apply/eqP; vm_compute.
by apply: family_accepts; vm_compute.
Defined.

Lemma NormalGamma_round_trip_witness :
  NormalGamma.valid (NormalGamma.params ex_normal_gamma)
  /\ NormalGamma.update_from_natural_parameters ex_prior
       (NormalGamma.natural_parameters ex_normal_gamma)
     = Ok ex_normal_gamma.
Proof.
have v : NormalGamma.valid (NormalGamma.params ex_normal_gamma).
  by vm_compute.
by split; [exact: v | exact: (NormalGamma_round_trip ex_prior v)].
Defined.

Lemma Full_latent_posteriors_natural_parameters_witness :
  let self := ex_model full in
  let stats := GSM.stats_of ex_data in
  let counts := GSM.counts_of ex_data in
  let opt := GSM.argmax (ex_llh 2 2 1) stats counts in
  let Hess : 'I_2 -> 'M[rat]_2 :=
    GSM.hessian (ex_llh 2 2 1) opt stats counts full in
  let m := (GSM.moments (ex_priors 1 2) (GSM.posterior (GSM.mean self))).1 in
  let W :=
    (GSM.mn_moments (ex_priors 1 2) (GSM.posterior (GSM.subspace self))).1 in
  let U := GSM.cov (GSM.posterior (GSM.subspace self)) in
  GSM.value (GSM.latent_prior self)
  = GSM.new_normal_full (ex_priors 1 2) 0 1%:M
  /\ GSM.nfc_natural_parameters
       (tnth (GSM.posts_of (GSM.Full_latent_posteriors self ex_data false))
             ord0)
     = GSM.nfc_of_std (ex_priors 1 2) 0 1%:M
       + row_mx ((- (Hess ord0 *m (row ord0 opt - m)^T))^T *m W^T)
                (half rat
                 *: mxvec (\tr (Hess ord0) *: U + W *m Hess ord0 *m W^T)).
Proof.
have e : GSM.value (GSM.latent_prior (ex_model full))
         = GSM.new_normal_full (ex_priors 1 2) 0 1%:M by [].
split; first exact: e.
exact: (Full_latent_posteriors_natural_parameters ex_data false ord0 e).
Defined.

Lemma ex_hessians_agree : GSM.hessians_agree (ex_llh 2 2 1) ex_data.
Proof.
split=> [i a b|i a]; rewrite /= !mxE //.
by case: (a == b); rewrite ?mulr1n ?mulr0n.
Defined.

Lemma modes_agree_witness :
  GSM.hessians_agree (ex_llh 2 2 1) ex_data
  /\ [/\ GSM.posts_of
           (GSM.Full_latent_posteriors (ex_model full) ex_data false)
         = GSM.posts_of
             (GSM.Diagonal_latent_posteriors (ex_model diagonal) ex_data
                                             false),
         GSM.posts_of
           (GSM.Diagonal_latent_posteriors (ex_model diagonal) ex_data false)
         = GSM.posts_of
             (GSM.Scalar_latent_posteriors (ex_model scalar) ex_data false),
         GSM.Full_accumulate
           (GSM.Full_expected_log_likelihood (ex_model full) ex_data).2
           ex_data
         = GSM.Diagonal_accumulate
             (GSM.Diagonal_expected_log_likelihood (ex_model diagonal)
                                                   ex_data).2
             ex_data
       & GSM.Diagonal_accumulate
           (GSM.Diagonal_expected_log_likelihood (ex_model diagonal)
                                                 ex_data).2
           ex_data
         = GSM.Scalar_accumulate
             (GSM.Scalar_expected_log_likelihood (ex_model scalar) ex_data).2
             ex_data].
Proof.
split; first exact: ex_hessians_agree.
exact: (modes_agree _ _ _ None None None ex_hessians_agree).
Defined.

Lemma create_by_hessian_type_witness :
  GSM.create (ex_priors 1 2) (ex_llh 2 2 1)
    (row_mx 1 0 : 'M[rat]_(1, 1 + 1)) 0 0 1 "cubic" 0
  = Raise (ValueError (String.append "Unknown hessian type: "
                                     (quoted "cubic"))).
Proof.
have [_ _ _ h] :=
  create_by_hessian_type (ex_priors 1 2) (ex_llh 2 2 1)
    (row_mx 1 0 : 'M[rat]_(1, 1 + 1)) 0 0 0 1.
by apply: h.
Defined.

(** * Further properties of the code *)

(** ** More on tensors and on [BayesianParameter] *)

Section TensorMore.
Variable F : realFieldType.
Implicit Types (x y z : seq F) (c : F).

Lemma tadd_zeros x y : size y = size x -> tadd x (zeros_like y) = x.
Proof.
rewrite /tadd /zeros_like => ->.
by elim: x => [|a x IH] //=; rewrite addr0 IH.
Qed.

Lemma tadd_tscale0 x y : size y = size x -> tadd x (tscale 0 y) = x.
Proof.
rewrite /tadd /tscale; elim: x y => [|a x IH] [|b y] //= [e].
by rewrite mul0r addr0 IH.
Qed.

(** The step of size [c] from [x] towards [y] leaves the fraction [1 - c]
    of the way. *)
Lemma tsub_step c x y :
  size y = size x ->
  tsub y (tadd x (tscale c (tsub y x))) = tscale (1 - c) (tsub y x).
Proof.
rewrite /tadd /tscale /tsub; elim: x y => [|a x IH] [|b y] //= [e].
by rewrite (IH _ e); congr (_ :: _); ring.
Qed.

End TensorMore.

Section ParametersMore.

Variable F : realFieldType.
Variable fam : ExponentialFamily F.
Variable callback : eqType.
Variable world : Type.
Variable call : callback -> BayesianParameter fam callback -> world ->
                BayesianParameter fam callback * world.
Variable iter_order : seq callback -> seq callback.

Implicit Types (p : BayesianParameter fam callback) (w : world).
Implicit Types (cb : callback) (lrate : F).

(** X1.  The statistics of a parameter never belong to a computation
    graph: [__init__] and [store_stats] store detached values (those of
    their argument, on both branches of [store_stats]), and [zero_stats]
    and [register_callback] keep them detached. *)
Theorem stats_always_detached :
  [/\ forall (st : Tensor F) (d1 d2 : dist fam),
        detached (BayesianParameter_init callback st d1 d2),
      forall (S : Tensor F) p,
        detached (store_stats S p)
        /\ data (_stats (store_stats S p)) = data S,
      forall p, detached p -> detached (zero_stats p)
    & forall cb p, detached p -> detached (register_callback cb p)].
Proof.
split=> // S p; rewrite /detached /store_stats /=.
by case: S => d [].
Qed.

(** X2.  After [zero_stats], the update with [lrate = 1] brings the
    posterior back to the natural parameters of the prior. *)
Theorem zero_stats_full_step p w :
  keeps_callbacks call -> keeps_posterior call ->
  size (natural_parameters (prior p))
  = size (natural_parameters (posterior p)) ->
  size (data (stats p)) = size (natural_parameters (posterior p)) ->
  accepts fam (natural_parameters (prior p)) ->
  exists p' w' log,
    natural_grad_update call iter_order 1 (zero_stats p) w = Ok (p', w', log)
    /\ natural_parameters (posterior p') = natural_parameters (prior p).
Proof.
move=> kc kp s1 s2 acc.
have s3 : size (data (_stats (zero_stats p)))
          = size (natural_parameters (posterior p)).
  by rewrite /= size_nseq.
have en : new_nparams 1 (zero_stats p) = Ok (natural_parameters (prior p)).
  rewrite (new_nparams_same 1 (p := zero_stats p) s1 s3) /=.
  by rewrite tadd_zeros ?tadd_full_step // s2.
exact: (natural_grad_update_posterior iter_order w kc kp en acc).
Qed.

(** X3.  The update with [lrate = 0] leaves the natural parameters of the
    posterior as they are. *)
Theorem zero_lrate_keeps_posterior p w :
  keeps_callbacks call -> keeps_posterior call ->
  size (natural_parameters (prior p))
  = size (natural_parameters (posterior p)) ->
  size (data (stats p)) = size (natural_parameters (posterior p)) ->
  accepts fam (natural_parameters (posterior p)) ->
  exists p' w' log,
    natural_grad_update call iter_order 0 p w = Ok (p', w', log)
    /\ natural_parameters (posterior p') = natural_parameters (posterior p).
Proof.
move=> kc kp s1 s2 acc.
have en : new_nparams 0 p = Ok (natural_parameters (posterior p)).
  rewrite (new_nparams_same 0 s1 s2) tadd_tscale0 //.
  by rewrite size_tsub size_tadd // s1 -s2.
exact: (natural_grad_update_posterior iter_order w kc kp en acc).
Qed.

(** X4.  One update multiplies the distance, entry by entry, between the
    posterior and the conjugate posterior [prior + stats] by
    [1 - lrate]. *)
Theorem natural_gradient_contracts lrate p w :
  keeps_callbacks call -> keeps_posterior call ->
  let prior_nparams := natural_parameters (prior p) in
  let posterior_nparams := natural_parameters (posterior p) in
  let target := tadd prior_nparams (data (stats p)) in
  size prior_nparams = size posterior_nparams ->
  size (data (stats p)) = size posterior_nparams ->
  accepts fam (tadd posterior_nparams
                    (tscale lrate (tsub target posterior_nparams))) ->
  exists p' w' log,
    natural_grad_update call iter_order lrate p w = Ok (p', w', log)
    /\ tsub target (natural_parameters (posterior p'))
       = tscale (1 - lrate) (tsub target posterior_nparams).
Proof.
move=> kc kp /= s1 s2 acc.
have [p' [w' [log [e1 e2]]]] :=
  natural_grad_update_posterior iter_order w kc kp
    (new_nparams_same lrate s1 s2) acc.
exists p', w', log; split=> //.
by rewrite e2 tsub_step // size_tadd ?s1 // s2.
Qed.

(** X5.  One [natural_grad_update] that gets as far as the posterior
    applies the callbacks of the set one after the other, in an order in
    which every registered callback comes once and no other callback
    comes: the parameter and the world it returns are those that the last
    of them leaves. *)
Theorem registered_callbacks_called lrate p w v :
  visits_once iter_order -> keeps_callbacks call -> wf p ->
  new_nparams lrate p = Ok v -> accepts fam v ->
  let order := iter_order (_callbacks p) in
  exists d,
    let p1 := set_posterior d p in
    let log := zip order (found call order p1 w) in
    [/\ update_from_natural_parameters (posterior p) v = Ok d,
        natural_grad_update call iter_order lrate p w
        = Ok (run_callbacks call order p1 w, log),
        forall cb, count_mem cb order = (cb \in _callbacks p),
        forall cb, calls_of cb log = (cb \in _callbacks p)
      & size log = size (_callbacks p)].
Proof.
move=> vo kc up ev acc order.
have [d [e1 e2 e3]] := natural_grad_updateP iter_order w kc ev acc.
have co cb : count_mem cb order = (cb \in _callbacks p).
  exact: count_iter_order.
exists d; split=> // [cb|]; first by rewrite calls_of_zip ?size_found.
by rewrite size_zip size_found minnn (perm_size (vo _)).
Qed.

(** X18.  When the statistics and the natural parameters of the prior have
    different lengths, neither of them being one, the update raises
    [RuntimeError] at its first sum, whatever the family and the
    callbacks are. *)
Theorem natural_grad_update_size_mismatch lrate p w :
  let n := size (natural_parameters (prior p)) in
  let k := size (data (stats p)) in
  n != k -> n != 1%N -> k != 1%N ->
  natural_grad_update call iter_order lrate p w
  = Raise (RuntimeError
             "The size of tensor a must match the size of tensor b").
Proof.
move=> /= /negPf nk /negPf n1 /negPf k1.
by rewrite /natural_grad_update /new_nparams /torch_add /broadcast nk n1 k1.
Qed.

(** X19.  Statistics of a single entry [s] are not refused: the entry is
    added to every natural parameter, and the posterior is left with
    [posterior + lrate * (prior + s - posterior)]. *)
Theorem natural_grad_update_broadcast lrate p w (s : F) :
  keeps_callbacks call -> keeps_posterior call ->
  let prior_nparams := natural_parameters (prior p) in
  let posterior_nparams := natural_parameters (posterior p) in
  let target :=
    tadd posterior_nparams
      (tscale lrate
         (tsub (tadd prior_nparams (nseq (size prior_nparams) s))
               posterior_nparams)) in
  size prior_nparams = size posterior_nparams ->
  data (stats p) = [:: s] ->
  accepts fam target ->
  exists p' w' log,
    natural_grad_update call iter_order lrate p w = Ok (p', w', log)
    /\ natural_parameters (posterior p') = target.
Proof.
move=> kc kp /= s1 es acc.
apply: (natural_grad_update_posterior iter_order w kc kp _ acc).
set x := natural_parameters (prior p).
have e1 : torch_add x (data (_stats p)) = Ok (tadd x (nseq (size x) s)).
  rewrite /torch_add /broadcast [data _]es /=.
  by case: (x) => [|a [|b y]].
have e2 : size (tadd x (nseq (size x) s))
          = size (natural_parameters (posterior p)).
  by rewrite size_tadd ?size_nseq.
rewrite /new_nparams -/x e1 /= torch_sub_same //=.
by rewrite torch_add_same // size_tscale size_tsub.
Qed.

(** X6.  The order in which two callbacks are registered does not change
    the set of callbacks. *)
Theorem register_callback_commute cb1 cb2 p :
  wf p ->
  perm_eq (_callbacks (register_callback cb1 (register_callback cb2 p)))
          (_callbacks (register_callback cb2 (register_callback cb1 p))).
Proof.
move=> up; apply: uniq_perm; rewrite ?set_add_uniq ?set_add_uniq //.
by move=> cb /=; rewrite !mem_set_add orbCA.
Qed.

End ParametersMore.

(** ** More on [NormalGamma] *)

Section NormalGammaMore.
Variable F : realFieldType.
Import NormalGamma.
Implicit Types (v : seq F).

(** X7.  From natural to standard parameters and back: on a vector of
    even length, at least two, whose entry before the last is not zero,
    [update_from_natural_parameters] succeeds and [natural_parameters]
    returns the vector. *)
Theorem NormalGamma_natural_round_trip v (d : NormalGamma F) :
  ~~ odd (size v) -> (1 < size v)%N -> v`_(size v - 2) != 0 ->
  exists2 d', update_from_natural_parameters d v = Ok d'
            & natural_parameters d' = v.
Proof.
move=> ev s2 c0; have [p e1 e2] := natural_parametersK ev s2 c0.
by exists (mkNormalGamma p); rewrite // /update_from_natural_parameters e1.
Qed.

(** X8.  On any vector of at least two entries,
    [from_natural_parameters] succeeds and returns a mean and rates of
    the same length, half the length of the vector less two. *)
Theorem from_natural_parameters_shape v :
  (1 < size v)%N ->
  exists2 p, from_natural_parameters v = Ok p
           & size (mean p) = ((size v - 2) %/ 2)%N
             /\ size (rates p) = ((size v - 2) %/ 2)%N.
Proof.
move=> s2; rewrite /from_natural_parameters ltnNge s2 /=.
set n := ((size v - 2) %/ 2)%N.
have l2 : (2 * n <= size v - 2)%N by rewrite mulnC leq_trunc_div.
have l1 : (2 * n <= size v)%N by rewrite (leq_trans l2) // leq_subr.
have l0 : (n <= size v)%N.
  by rewrite (leq_trans _ l1) // mul2n -addnn leq_addr.
eexists; first by []; rewrite /= /tdiv /tsub /tneg /tscale /tsquare.
rewrite !size_map size_zip !size_map size_take size_drop size_take.
have clip m : (m <= size v)%N -> (if (m < size v)%N then m else size v) = m.
  by rewrite leq_eqVlt => /orP [/eqP -> | ->] //; rewrite ltnn.
by rewrite !clip // mul2n -addnn addnK minnn.
Qed.
End NormalGammaMore.

(** ** More on [NormalSet.create] *)

Section NormalSetMore.

Variables (tensor scalar conf : Type).
Variable tensorconf_of : tensor -> conf.
Variable detach : tensor -> tensor.
Variable JointConjugateBayesianParameters : Type.
Variable _default_fullcov_param :
  tensor -> tensor -> scalar -> conf ->
  result JointConjugateBayesianParameters.
Variables _default_diagcov_param _default_isocov_param :
  tensor -> tensor -> nat -> scalar -> scalar -> conf ->
  result JointConjugateBayesianParameters.

Let create := NormalSet.create tensorconf_of detach _default_fullcov_param
                _default_diagcov_param _default_isocov_param.

(** X9.  What [NormalSet.create] does for every covariance type: with
    ["diagonal"] and ["isotropic"] it wraps what the helper builds from the
    detached tensors; with ["full"], the default, it raises [TypeError],
    the helper of four parameters being called with six arguments; with
    any other string it raises [KeyError]. *)
Theorem NormalSet_create_by_cov_type mean cov size prior_strength noise_std
    (cov_type : string) shared_cov :
  let wrap r := bind r (fun mp => Ok (NormalSet.mkNormalSet mp)) in
  exists msg,
    create mean cov size prior_strength noise_std cov_type shared_cov
    = if (cov_type =? "full")%string then Raise (TypeError msg)
      else if (cov_type =? "diagonal")%string then
        wrap (_default_diagcov_param (detach mean) (detach cov) size
                prior_strength noise_std (tensorconf_of mean))
      else if (cov_type =? "isotropic")%string then
        wrap (_default_isocov_param (detach mean) (detach cov) size
                prior_strength noise_std (tensorconf_of mean))
      else Raise (KeyError cov_type).
Proof.
exists "takes 4 positional arguments but 6 were given"%string.
rewrite /create /NormalSet.create str_in_refl.
rewrite /NormalSet._default_param 3!{1}dict_get_cons.
rewrite ![(cov_type =? _)%string]String.eqb_sym.
case: ("full" =? cov_type)%string; first by [].
case: ("diagonal" =? cov_type)%string; first by [].
by case: ("isotropic" =? cov_type)%string.
Qed.

End NormalSetMore.

(** ** The joint Normal-Gamma *)

Section JointNormalGammaTheory.

Variable F : realFieldType.
Import JointNormalGamma.

Implicit Types (x : seq (seq F)) (s r m : seq F).

Lemma shape_lines_scale D s x :
  size s = size x -> all (fun m => size m == D) x ->
  seq.shape (lines_scale s x) = nseq (size x) D.
Proof.
rewrite /lines_scale; elim: x s => [|m x IH] [|a s] //= [e] /andP [/eqP em h].
by rewrite size_tscale em (IH _ e h).
Qed.

Lemma lines_div_scale s x :
  size s = size x -> all (fun a => a != 0) s ->
  lines_div (lines_scale s x) s = x.
Proof.
rewrite /lines_div /lines_scale.
elim: x s => [|m x IH] [|a s] //= [e] /andP [a0 h].
by rewrite tdiv_tscale // (IH _ e h).
Qed.

Lemma size_sum_dim0 D x :
  all (fun m => size m == D) x -> size (sum_dim0 D x) = D.
Proof.
elim: x => [|m x IH] /=; first by rewrite size_nseq.
by case/andP => /eqP e h; rewrite size_tadd ?e // IH.
Qed.

Lemma tmul_tscale a m : tmul (tscale a m) m = tscale a (tsquare m).
Proof.
rewrite /tmul /tscale /tsquare; elim: m => //= b m ->.
by rewrite expr2 mulrA.
Qed.

Lemma products_lines_scale s x :
  size s = size x ->
  [seq tmul p.1 p.2 | p <- zip (lines_scale s x) x]
  = lines_scale s [seq tsquare m | m <- x].
Proof.
rewrite /lines_scale; elim: x s => [|m x IH] [|a s] //= [e].
by rewrite tmul_tscale (IH _ e).
Qed.

Lemma rates_of_sum (h : F) s r :
  size s = size r ->
  tsub (tneg (tsub (tscale (- h) s) r)) (tscale h s) = r.
Proof.
rewrite /tsub /tneg /tscale; elim: s r => [|a s IH] [|b r] //= [e].
by rewrite (IH _ e); congr (_ :: _); ring.
Qed.

Lemma tscale_neg2_half s : tscale (- 2) (tscale (- half F) s) = s.
Proof.
rewrite /tscale -map_comp -[RHS]map_id; apply: eq_map => a /=.
exact: neg2_neg_half.
Qed.

Lemma all_squares D x :
  all (fun m => size m == D) x ->
  all (fun m => size m == D) [seq tsquare m | m <- x].
Proof. by elim: x => //= m x IH /andP [e h]; rewrite size_map e IH. Qed.

Lemma all_lines_scale D s x :
  size s = size x -> all (fun m => size m == D) x ->
  all (fun m => size m == D) (lines_scale s x).
Proof.
rewrite /lines_scale; elim: x s => [|m x IH] [|a s] //= [e] /andP [em h].
by rewrite size_tscale em IH.
Qed.

(** From standard to natural parameters and back. *)
Lemma from_natural_parametersK_joint (p : JointNormalGammaStdParams F) :
  valid p ->
  from_natural_parameters (natural_parameters (mkJointNormalGamma p))
                          (size (means p)) = Ok p.
Proof.
case: p => x s a r /and5P [] /= K0 /eqP es s0 a0 /andP [_ ex].
set K := size x; set D := size r.
have hD : size (head [::] x) = D.
  by case: (x) K0 ex => //= m x' _ /andP [/eqP].
rewrite /natural_parameters /dim /= hD -/K.
set A := flatten _; set B := tsub _ r; set C := tscale _ s.
set e := a - 1 + _.
have sA : size A = (K * D)%N.
  by rewrite /A size_flatten (shape_lines_scale es ex) sumn_nseq mulnC.
have sS : size (sum_dim0 D (lines_scale s [seq tsquare m | m <- x])) = D.
  by rewrite size_sum_dim0 // all_lines_scale ?size_map // all_squares.
have sB : size B = D by rewrite size_tsub size_tscale sS.
have sC : size C = K by rewrite size_tscale.
have len : size (A ++ B ++ C ++ [:: e]) = (K * D + D + K + 1)%N.
  by rewrite !size_cat sA sB sC /= !addnA.
rewrite /from_natural_parameters len.
have -> : (K * D + D + K + 1 < K + 1)%N = false.
  by rewrite -addnA ltnNge leq_addl.
have -> : ((K * D + D + K + 1 - K - 1) %/ (K + 1) = D)%N.
  by rewrite -subnDA -addnA addnK [(K * D + D)%N]addnC -mulSn addn1 mulKn.
set V := A ++ _.
have t1 : take (K * D) V = A by rewrite /V take_size_cat.
have t2 : take ((K + 1) * D) V = A ++ B.
  by rewrite /V catA take_size_cat // size_cat sA sB addn1 mulSn addnC.
have t3 : take (K * D + D + K + 1 - 1) V = A ++ B ++ C.
  by rewrite addnK /V !catA take_size_cat // !size_cat sA sB sC.
have n4 : V`_(K * D + D + K + 1 - 1) = e.
  by rewrite addnK /V !catA nth_cat !size_cat sA sB sC ltnn subnn.
have d3 : drop (K * D + D + K + 1 - (K + 1)) (A ++ B ++ C) = C.
  by rewrite -addnA addnK catA drop_size_cat // size_cat sA sB.
rewrite t1 t2 t3 n4 d3 drop_size_cat // {V t1 t2 t3 n4 d3}.
rewrite /C tscale_neg2_half /A -(shape_lines_scale es ex) flattenK.
have s0' : all (fun a => a != 0) s.
  by apply: sub_all s0 => b; exact: lt0r_neq0.
rewrite lines_div_scale // products_lines_scale // /B rates_of_sum //.
by congr (Ok (mkStdParams _ _ _ _)); rewrite /e; ring.
Qed.

(** X10.  For valid standard parameters of the joint Normal-Gamma,
    [update_from_natural_parameters] applied to the result of
    [natural_parameters] gives back the means, the scales, the shape and
    the rates, whatever the updated distribution held before, as long as
    it has the same number of Normals. *)
Theorem Joint_round_trip (d0 d : JointNormalGamma F) :
  valid (params d) ->
  size (means (params d0)) = size (means (params d)) ->
  update_from_natural_parameters d0 (natural_parameters d) = Ok d.
Proof.
case: d => p v; rewrite /update_from_natural_parameters /= => ->.
by rewrite from_natural_parametersK_joint.
Qed.

End JointNormalGammaTheory.

(** ** More on the generalized subspace models *)

Section GSMMore.

Variable F : realFieldType.
Variables N K D P : nat.
Variable pk : GSM.priors_package F K D.

Import GSM.

Implicit Types (data : 'M[F]_(N, P + 1)).

(** [A.t() @ B] as a sum over the lines. *)
Lemma trmx_mul_sum_rows m n k (A : 'M[F]_(m, n)) (B : 'M[F]_(m, k)) :
  A^T *m B = \sum_i (row i A)^T *m row i B.
Proof.
apply/matrixP => a b; rewrite mxE summxE.
by apply: eq_bigr => i _; rewrite !mxE big_ord1 !mxE.
Qed.

Lemma row_scale_lines m n (A : 'M[F]_(m, n)) (v : 'rV[F]_m) i :
  row i (scale_lines A v) = v 0 i *: row i A.
Proof. by apply/rowP => j; rewrite !mxE mulrC. Qed.

Lemma sum_first_rows m n (A : 'M[F]_(m, n)) : sum_first A = \sum_i row i A.
Proof.
by apply/rowP => j; rewrite mxE summxE; apply: eq_bigr => i _; rewrite mxE.
Qed.

Lemma isometricE (tr : 'rV[F]_N) i : isometric D tr 0 i = tr 0 i / D%:R.
Proof. by rewrite mxE. Qed.

(** X11.  In the full-Hessian model, after the forward pass, [accumulate]
    returns for the subspace the concatenation of
    [- vec(sum_i t_i h_i^T (opt_i - m))] and of [0.5 sum_i t_i hh_i], where
    [t_i = tr(Hess_i) / D] and [h_i], [hh_i] are the moments of the latent
    posterior of item [i]. *)
Theorem Full_accumulate_subspace_stats
    (self : GeneralizedSubspaceModel N P pk full) data :
  let stats := stats_of data in
  let counts := counts_of data in
  let opt := argmax (llh_func self) stats counts in
  let Hess : 'I_N -> 'M[F]_D :=
    hessian (llh_func self) opt stats counts full in
  let m := (moments pk (posterior (mean self))).1 in
  let l_posts := posts_of (Full_latent_posteriors self data true) in
  let H := stack_first pk l_posts in
  let HH := stack_second pk l_posts in
  let self' := (Full_expected_log_likelihood self data).2 in
  exists2 acc,
    Full_accumulate self' data = Ok acc
    & subspace_stats acc
      = row_mx
          (- mxvec (\sum_i (\tr (Hess i) / D%:R)
                           *: ((row i H)^T *m (row i opt - m))))
          (half F *: \sum_i (\tr (Hess i) / D%:R) *: row i HH).
Proof.
move=> /=; rewrite /Full_accumulate Full_forward_cache Full_posts_of.
eexists; first by [].
rewrite /Full_latent_posteriors_cache /_extract_moments.
case: (moments _ _) => m mm; case: (mn_moments _ _) => W WW /=.
rewrite linearZ /= trmxK trmx_mul_sum_rows sum_first_rows.
congr (row_mx (- mxvec _) (_ *: _)); apply: eq_bigr => i _.
  by rewrite row_scale_lines row_sub_line -scalemxAr isometricE _trace_arrayE.
by rewrite row_scale_lines isometricE _trace_arrayE.
Qed.

(** *** The quadratic approximation as a quadratic form *)

(** [sum(A * B, dim=-1)] at item [i], as a product of lines. *)
Lemma sum_last_emul m n (A B : 'M[F]_(m, n)) i :
  sum_last (emul A B) 0 i = (row i A *m (row i B)^T) 0 0.
Proof.
by rewrite !mxE; apply: eq_bigr => j _; rewrite !mxE.
Qed.

Lemma sum_last_mul_line m n (A : 'M[F]_(m, n)) (v : 'rV[F]_n) i :
  sum_last (mul_line A v) 0 i = (row i A *m v^T) 0 0.
Proof.
by rewrite !mxE; apply: eq_bigr => j _; rewrite !mxE.
Qed.

Lemma dot_comm n (a b : 'rV[F]_n) : (a *m b^T) 0 0 = (b *m a^T) 0 0.
Proof. by rewrite !mxE; apply: eq_bigr => j _; rewrite !mxE mulrC. Qed.

Lemma form_flat (Hs : 'M[F]_D) (u v : 'rV[F]_D) :
  (mxvec Hs *m (mxvec (u^T *m v))^T) 0 0 = form Hs u v.
Proof. by rewrite dot_comm mxvec_dotmul. Qed.

Lemma formBl Hs (u u' v : 'rV[F]_D) :
  form Hs (u - u') v = form Hs u v - form Hs u' v.
Proof. by rewrite /form !mulmxBl !mxE. Qed.

Lemma formBr Hs (u v v' : 'rV[F]_D) :
  form Hs u (v - v') = form Hs u v - form Hs u v'.
Proof. by rewrite /form linearB /= mulmxBr !mxE. Qed.

Lemma form_sym Hs (u v : 'rV[F]_D) : Hs^T = Hs -> form Hs u v = form Hs v u.
Proof.
by move=> sym; rewrite /form dot_comm trmx_mul sym mulmxA.
Qed.


Lemma entryD (u v : 'rV[F]_N) i : (u + v) 0 i = u 0 i + v 0 i.
Proof. by rewrite mxE. Qed.

Lemma entryN (u : 'rV[F]_N) i : (- u) 0 i = - u 0 i.
Proof. by rewrite mxE. Qed.

Lemma entryZ (a : F) (u : 'rV[F]_N) i : (a *: u) 0 i = a * u 0 i.
Proof. by rewrite mxE. Qed.

Lemma row_vector_products (Hs : 'I_N -> 'M[F]_D) (v : 'rV[F]_D) i :
  row i (\matrix_(i, j) \sum_k (Hs i j k * v 0 k) : 'M[F]_(N, D))
  = (Hs i *m v^T)^T.
Proof.
by apply/rowP => j; rewrite !mxE; apply: eq_bigr => k _; rewrite !mxE.
Qed.

Lemma row_outer_flat (A : 'M[F]_(N, D)) i :
  row i (flatten_items (fun i => \matrix_(a, b) (A i a * A i b)))
  = mxvec ((row i A)^T *m row i A).
Proof.
rewrite row_flatten_items; congr mxvec.
by apply/matrixP => a b; rewrite !mxE big_ord1 !mxE.
Qed.

(** X13.  On a cache that holds point moments (the second moments are the
    squares of the first ones, the covariance of the subspace is zero) and
    a symmetric Hessian for item [i], the value of [_quad_approx] for this
    item is the second-order expansion of the likelihood around [opt_i],
    taken at [m + h_i W]. *)
Theorem Full__quad_approx_taylor
    (self : GeneralizedSubspaceModel N P pk full) (c : lp_cache N P pk full)
    (i : 'I_N) :
  let Hess : 'I_N -> 'M[F]_D := c_hessians c in
  let delta := row i (c_opt c) - c_m c - row i (c_H c *m c_W c) in
  (Hess i)^T = Hess i ->
  c_mm c = mxvec ((c_m c)^T *m c_m c) ->
  row i (c_HH c) = mxvec ((row i (c_H c))^T *m row i (c_H c)) ->
  row i (c_WHW c) = mxvec (c_W c *m Hess i *m (c_W c)^T) ->
  (Full__quad_approx self c).1 0 i
  = llh (llh_func self) (c_opt c) (c_stats c) (c_counts c) 0 i
    + half F * form (Hess i) delta delta.
Proof.
move=> Hess delta sym emm eHH eWHW.
rewrite /Full__quad_approx /quad_value /= -/Hess.
set x := row i (c_opt c); set z := row i (c_H c *m c_W c) in delta *.
have t1 : sum_last (emul (c_HH c) (c_WHW c)) 0 i = form (Hess i) z z.
  rewrite sum_last_emul eHH eWHW mxvec_dotmul /form /z row_mul.
  by rewrite trmx_mul !mulmxA.
have t2 : sum_last (mul_line (flatten_items Hess) (c_mm c)) 0 i
          = form (Hess i) (c_m c) (c_m c).
  by rewrite sum_last_mul_line row_flatten_items emm form_flat.
have t3 : sum_last (emul (flatten_items Hess)
            (flatten_items (fun i => \matrix_(a, b)
                                       (c_opt c i a * c_opt c i b)))) 0 i
          = form (Hess i) x x.
  by rewrite sum_last_emul row_flatten_items row_outer_flat form_flat.
set Hm : 'M[F]_(N, D) := \matrix_(i, j) \sum_k (Hess i j k * c_m c 0 k).
have t4 : sum_last (emul (c_H c *m c_W c) Hm) 0 i = form (Hess i) z (c_m c).
  by rewrite sum_last_emul row_vector_products trmxK /form mulmxA.
have t5 : sum_last (emul (c_opt c) Hm) 0 i = form (Hess i) x (c_m c).
  by rewrite sum_last_emul row_vector_products trmxK /form mulmxA.
have t6 : sum_last (emul (bmul_sum Hess (c_opt c)) (c_H c *m c_W c)) 0 i
          = form (Hess i) z x.
  by rewrite sum_last_emul dot_comm row_bmul_sum trmxK /form mulmxA.
rewrite !(entryD, entryN, entryZ) t1 t2 t3 t4 t5 t6 /delta !(formBl, formBr).
rewrite (form_sym (c_m c) x sym) (form_sym x z sym) (form_sym (c_m c) z sym).
by ring.
Qed.


(** *** The value of the forward pass across the modes *)

Lemma sum_flat_diag (A B : 'M[F]_D) (d : 'rV[F]_D) :
  (forall a b, A a b = if a == b then d 0 a else 0) ->
  \sum_x (mxvec A 0 x * mxvec B 0 x) = \sum_a (d 0 a * B a a).
Proof.
move=> eA.
transitivity (\sum_a \sum_b (mxvec A 0 (mxvec_index a b)
                             * mxvec B 0 (mxvec_index a b))).
  rewrite pair_bigA (reindex _ (curry_mxvec_bij _ _)) /=.
  by apply: eq_bigr => [[a b]].
apply: eq_bigr => a _; rewrite (bigD1 a) //= !mxvecE eA eqxx.
rewrite big1 ?addr0 // => b /negPf nba.
by rewrite !mxvecE eA eq_sym nba mul0r.
Qed.

Section ForwardAgreement.

Variable lf : LikelihoodFunction F N D P.
Variable sub : BayesianParameter (MatrixNormalPrior F K D).
Variable mn : BayesianParameter (NormalFullCovariancePrior F D).
Variable lat : ConstantParameter (NormalFullCovariancePrior F K).
Variable cF : option (quad_cache N P pk full).
Variable cD : option (quad_cache N P pk diagonal).
Variable cS : option (quad_cache N P pk scalar).
Variable data : 'M[F]_(N, P + 1).

Hypothesis agree : hessians_agree lf data.

Let opt := argmax lf (stats_of data) (counts_of data).
Let HessF : 'I_N -> 'M[F]_D :=
  hessian lf opt (stats_of data) (counts_of data) full.
Let HessD : 'M[F]_(N, D) :=
  hessian lf opt (stats_of data) (counts_of data) diagonal.
Let HessS : 'rV[F]_N :=
  hessian lf opt (stats_of data) (counts_of data) scalar.

Lemma flat_HessF_line (v : 'rV[F]_(D * D)) :
  sum_last (mul_line (flatten_items HessF) v)
  = sum_last (mul_line HessD (diag_of_flat v)).
Proof.
apply/rowP => i; rewrite !mxE.
rewrite (eq_bigr (fun x => mxvec (HessF i) 0 x * mxvec (vec_mx v) 0 x)).
  by move=> x _; rewrite !mxE vec_mxK.
rewrite (@sum_flat_diag (HessF i) _ (row i HessD)).
  by move=> a b; rewrite mxE; case: agree => h _; apply: h.
by apply: eq_bigr => a _; rewrite !mxE.
Qed.

Lemma flat_HessF_square (A : 'M[F]_(N, D)) :
  sum_last (emul (flatten_items HessF)
              (flatten_items (fun i => \matrix_(a, b) (A i a * A i b))))
  = sum_last (emul (emul HessD A) A).
Proof.
apply/rowP => i; rewrite !mxE.
rewrite (eq_bigr (fun x => mxvec (HessF i) 0 x
                           * mxvec (\matrix_(a, b) (A i a * A i b)) 0 x)).
  by move=> x _; rewrite !mxE.
rewrite (@sum_flat_diag (HessF i) _ (row i HessD)).
  by move=> a b; rewrite mxE; case: agree => h _; apply: h.
by apply: eq_bigr => a _; rewrite !mxE mulrA.
Qed.

Lemma HessF_times (v : 'rV[F]_D) :
  (\matrix_(i, j) \sum_k (HessF i j k * v 0 k) : 'M[F]_(N, D))
  = mul_line HessD v.
Proof.
have -> : mul_line HessD v = emul HessD (\matrix_(i, j) v 0 j).
  by apply/matrixP => i j; rewrite !mxE.
rewrite -(bmul_sum_HessF agree).
by apply/matrixP => i j; rewrite !mxE; apply: eq_bigr => k _; rewrite !mxE.
Qed.

Lemma HessD_line (v : 'rV[F]_D) : mul_line HessD v = outer HessS v.
Proof.
by apply/matrixP => i j; rewrite !mxE; case: agree => _ ->.
Qed.

Lemma forward_Full_Diagonal :
  (Full_expected_log_likelihood (mkModel lf sub mn lat cF) data).1
  = (Diagonal_expected_log_likelihood (mkModel lf sub mn lat cD) data).1.
Proof.
rewrite /Full_expected_log_likelihood /Diagonal_expected_log_likelihood.
rewrite /Full_latent_posteriors_cache /Diagonal_latent_posteriors_cache.
rewrite /_extract_moments /=.
case: (moments _ _) => m mm; case: (mn_moments _ _) => W WW /=.
rewrite -/opt -/HessF -/HessD (trace_HessF agree) !(bmul_sum_HessF agree).
have -> : flatten_items (fun i => sum_last HessD 0 i *: cov (posterior sub)
                                  + W *m HessF i *m W^T)
          = flatten_items (fun i => sum_last HessD 0 i *: cov (posterior sub)
                                    + (\matrix_(a, b) (HessD i b * W a b))
                                      *m W^T).
  by apply/matrixP => i x; rewrite !mxE (mul_HessF agree).
by rewrite flat_HessF_line flat_HessF_square HessF_times.
Qed.

Lemma forward_Diagonal_Scalar :
  (Diagonal_expected_log_likelihood (mkModel lf sub mn lat cD) data).1
  = (Scalar_expected_log_likelihood (mkModel lf sub mn lat cS) data).1.
Proof.
rewrite /Diagonal_expected_log_likelihood /Scalar_expected_log_likelihood.
rewrite /Diagonal_latent_posteriors_cache /Scalar_latent_posteriors_cache.
rewrite /_extract_moments /=.
case: (moments _ _) => m mm; case: (mn_moments _ _) => W WW /=.
rewrite -/opt -/HessD -/HessS -(trace_HessD agree) !(emul_HessD agree).
have -> : flatten_items (fun i => sum_last HessD 0 i *: cov (posterior sub)
                                  + (\matrix_(a, b) (HessD i b * W a b))
                                    *m W^T)
          = flatten_items (fun i => sum_last HessD 0 i *: cov (posterior sub)
                                    + (HessS 0 i *: W) *m W^T).
  by apply/matrixP => i x; rewrite !mxE (scale_HessD agree).
by rewrite !HessD_line.
Qed.

End ForwardAgreement.
End GSMMore.

(** ** The stick-breaking categorical *)

Section ReverseOrdering.

Import SBCategorical.

Implicit Types (ordering r : seq nat).

Lemma reverse_ordering_prefix ordering k :
  uniq ordering -> all (fun j => j < size ordering)%N ordering ->
  (k <= size ordering)%N ->
  exists r,
    [/\ foldl reverse_ordering_step (Ok (nseq (size ordering) 0%N))
              (take k (enumerate ordering)) = Ok r,
        size r = size ordering
      & forall i, (i < k)%N -> nth 0%N r (nth 0%N ordering i) = i].
Proof.
move=> uo bo; elim: k => [|k IH] lk.
  by rewrite take0 /=; exists (nseq (size ordering) 0%N); rewrite size_nseq.
have [r [e1 e2 e3]] := IH (ltnW lk).
have sk : (k < size (enumerate ordering))%N.
  by rewrite /enumerate size_zip size_iota minnn.
have ek : nth (0%N, 0%N) (enumerate ordering) k = (k, nth 0%N ordering k).
  by rewrite /enumerate nth_zip ?size_iota // nth_iota.
have bk : (nth 0%N ordering k < size r)%N.
  by rewrite e2; apply: (allP bo); rewrite mem_nth.
rewrite (take_nth (0%N, 0%N) sk) -cats1 foldl_cat e1 ek /= bk.
exists (set_nth 0%N r (nth 0%N ordering k) k); split=> //.
  by rewrite size_set_nth e2; apply/maxn_idPr; rewrite -e2.
move=> i; rewrite ltnS leq_eqVlt nth_set_nth /= => /orP [/eqP -> | lik].
  by rewrite eqxx.
rewrite nth_uniq // ?(ltnW lk) ?(ltn_trans lik) //.
by rewrite (ltn_eqF lik) e3.
Qed.

Lemma reverse_ordering_perm ordering :
  perm_eq ordering (iota 0 (size ordering)) ->
  exists r,
    [/\ reverse_ordering ordering = Ok r,
        size r = size ordering,
        forall i, (i < size ordering)%N -> nth 0%N r (nth 0%N ordering i) = i
      & forall j, (j < size ordering)%N -> nth 0%N ordering (nth 0%N r j) = j].
Proof.
move=> po.
have uo : uniq ordering by rewrite (perm_uniq po) iota_uniq.
have bo : all (fun j => j < size ordering)%N ordering.
  by apply/allP => j; rewrite (perm_mem po) mem_iota.
have [r [e1 e2 e3]] := reverse_ordering_prefix uo bo (leqnn _).
exists r; split=> //.
  rewrite /reverse_ordering -e1 take_oversize //.
  by rewrite /enumerate size_zip size_iota minnn.
move=> j lj.
have : j \in ordering by rewrite (perm_mem po) mem_iota.
by case/(nthP 0%N) => i li <-; rewrite e3.
Qed.

(** X15.  When [ordering] is a permutation of [0, ..., n - 1],
    [reverse_ordering] succeeds and is the inverse permutation. *)
Theorem reverse_ordering_inverse ordering :
  perm_eq ordering (iota 0 (size ordering)) ->
  exists r,
    [/\ reverse_ordering ordering = Ok r,
        size r = size ordering,
        forall i, (i < size ordering)%N -> nth 0%N r (nth 0%N ordering i) = i
      & forall j, (j < size ordering)%N -> nth 0%N ordering (nth 0%N r j) = j].
Proof. exact: reverse_ordering_perm. Qed.

End ReverseOrdering.

Section SBAccumulateTheory.

Variable F : realFieldType.
Variables N T : nat.
Variable argsort_descending : 'rV[F]_T -> 'I_T -> 'I_T.

Import SBCategorical.

Lemma suffix_sum_nat (g : nat -> F) (j : nat) :
  (j <= T)%N ->
  \sum_(k < T | (j <= k)%N) g k = \sum_(j <= k < T) g k.
Proof.
move=> ljT; rewrite -(big_mkord (fun k => (j <= k)%N) g).
rewrite (big_cat_nat _ (n := j)) //=.
rewrite [X in X + _]big_nat_cond big_pred0 ?add0r.
  by move=> k; rewrite /= [(j <= k)%N]leqNgt; case: (k < j)%N.
rewrite big_nat_cond [RHS]big_nat_cond; apply: eq_bigl => k.
by case: (j <= k)%N.
Qed.

Lemma flip_cumsum_flip (A : 'M[F]_(N, T)) i (j : 'I_T) :
  flip (cumsum (flip A)) i j = \sum_(k < T | (j <= k)%N) A i k.
Proof.
rewrite !mxE (reindex_inj rev_ord_inj) /=.
apply: eq_big => [k|k _]; last by rewrite mxE rev_ordK.
by rewrite /= leq_sub2lE // ltnS.
Qed.

Lemma column_or_zero_ord (A : 'M[F]_(N, T)) i (k : 'I_T) :
  column_or_zero A i k = A i k.
Proof. by rewrite /column_or_zero valK. Qed.

Lemma column_or_zero_end (A : 'M[F]_(N, T)) i : column_or_zero A i T = 0.
Proof. by rewrite /column_or_zero insubF // ltnn. Qed.

(** The suffix sums of a line, from the sums of the line shifted. *)
Lemma shifted_suffix (A : 'M[F]_(N, T)) i (j : 'I_T) :
  flip (cumsum (flip (shift_left A))) i j + A i j
  = \sum_(k < T | (j <= k)%N) A i k.
Proof.
rewrite flip_cumsum_flip.
rewrite (eq_bigr (fun k : 'I_T => column_or_zero A i k.+1)).
  by move=> k _; rewrite mxE.
rewrite [RHS](eq_bigr (fun k : 'I_T => column_or_zero A i k)).
  by move=> k _; rewrite column_or_zero_ord.
rewrite (suffix_sum_nat (fun k => column_or_zero A i k.+1)) 1?ltnW //.
rewrite (suffix_sum_nat (column_or_zero A i)) 1?ltnW //.
rewrite [RHS]big_ltn // column_or_zero_ord addrC; congr (_ + _).
rewrite -(big_add1 _ _ j T.+1 xpredT (column_or_zero A i)) /=.
by rewrite big_nat_recr //= column_or_zero_end addr0.
Qed.

Lemma add_to_last_max (x : 'I_N -> 'M[F]_(T, 2)) n j :
  add_to_last x n j ord_max = x n j ord_max + x n j ord0.
Proof.
by rewrite mxE eqxx big_mkcond !big_ord_recl big_ord0 /= !addr0.
Qed.

(** X16.  [SBCategorical.accumulate] returns, for the component ranked
    [j], its count in the first column and, in the second, the sum of the
    counts of the components ranked [j] or after. *)
Theorem accumulate_suffix_sums (stats : 'M[F]_(N, T)) :
  let ordering := (accumulate argsort_descending stats).1 in
  let new_stats := (accumulate argsort_descending stats).2 in
  (forall j, new_stats j ord0 = \sum_n stats n (ordering j))
  /\ (forall j : 'I_T,
        new_stats j ord_max = \sum_(k < T | (j <= k)%N) new_stats k ord0).
Proof.
rewrite /accumulate /=; set ordering := argsort_descending _.
set O := gather_columns stats ordering.
have e0 j : (\sum_n add_to_last (stack_last O
                 (flip (cumsum (flip (shift_left O))))) n) j ord0
            = \sum_n O n j.
  by rewrite summxE; apply: eq_bigr => n _; rewrite !mxE.
split=> j; first by rewrite e0; apply: eq_bigr => n _; rewrite mxE.
rewrite (eq_bigr (fun k => \sum_n O n k)) // exchange_big /= summxE.
apply: eq_bigr => n _.
by rewrite -shifted_suffix add_to_last_max !mxE.
Qed.

End SBAccumulateTheory.

(** X14.  On Hessians that agree across the modes, the forward passes of
    the full, diagonal and scalar models return the same values. *)
Theorem forward_values_agree (F : realFieldType) (N K D P : nat)
    (pk : GSM.priors_package F K D)
    (lf : GSM.LikelihoodFunction F N D P)
    (sub : GSM.BayesianParameter (GSM.MatrixNormalPrior F K D))
    (mn : GSM.BayesianParameter (GSM.NormalFullCovariancePrior F D))
    (lat : GSM.ConstantParameter (GSM.NormalFullCovariancePrior F K))
    (cF : option (GSM.quad_cache N P pk full))
    (cD : option (GSM.quad_cache N P pk diagonal))
    (cS : option (GSM.quad_cache N P pk scalar))
    (data : 'M[F]_(N, P + 1)) :
  GSM.hessians_agree lf data ->
  let gF := GSM.mkModel lf sub mn lat cF in
  let gD := GSM.mkModel lf sub mn lat cD in
  let gS := GSM.mkModel lf sub mn lat cS in
  (GSM.Full_expected_log_likelihood gF data).1
  = (GSM.Diagonal_expected_log_likelihood gD data).1
  /\ (GSM.Diagonal_expected_log_likelihood gD data).1
     = (GSM.Scalar_expected_log_likelihood gS data).1.
Proof.
move=> agree /=; split.
  exact: forward_Full_Diagonal.
exact: forward_Diagonal_Scalar.
Qed.

Section OrderingTensor.

Variable F : realFieldType.
Variables N T : nat.
Variable argsort_descending : 'rV[F]_T -> 'I_T -> 'I_T.

Import SBCategorical.

Lemma nth_ordering_tensor (ordering : 'I_T -> 'I_T) (j : 'I_T) :
  nth 0%N (ordering_tensor ordering) j = ordering j.
Proof.
rewrite /ordering_tensor (nth_map j) ?size_enum_ord //.
by rewrite nth_ord_enum.
Qed.

Lemma size_ordering_tensor (ordering : 'I_T -> 'I_T) :
  size (ordering_tensor ordering) = T.
Proof. by rewrite size_map size_enum_ord. Qed.

Lemma perm_ordering_tensor (ordering : 'I_T -> 'I_T) :
  injective ordering ->
  perm_eq (ordering_tensor ordering) (iota 0 (size (ordering_tensor ordering))).
Proof.
move=> inj; rewrite size_ordering_tensor.
have u : uniq (ordering_tensor ordering).
  rewrite map_inj_uniq ?enum_uniq // => a b /val_inj; exact: inj.
have sub s : s \in ordering_tensor ordering -> s \in iota 0 T.
  by case/mapP => j _ ->; rewrite mem_iota /=.
have le : (size (iota 0 T) <= size (ordering_tensor ordering))%N.
  by rewrite size_iota size_ordering_tensor.
have [_ eqi] := uniq_min_size u sub le.
by apply: uniq_perm => //; exact: iota_uniq.
Qed.

(** X17.  When the sort returns a permutation, the ordering that
    [accumulate] stores can be reversed: [reverse_ordering] succeeds on it,
    and sends the component ranked [j] back to [j]. *)
Theorem accumulate_ordering_reversed (stats : 'M[F]_(N, T)) :
  injective (argsort_descending (sum_dim0 stats)) ->
  let ordering := (accumulate argsort_descending stats).1 in
  exists r,
    [/\ reverse_ordering (ordering_tensor ordering) = Ok r,
        size r = T
      & forall j : 'I_T, nth 0%N r (ordering j) = j].
Proof.
move=> inj /=; set ordering := argsort_descending _.
have [r [e1 e2 e3 _]] :=
  reverse_ordering_perm (perm_ordering_tensor inj).
exists r; split=> //; first by rewrite e2 size_ordering_tensor.
move=> j; rewrite -(nth_ordering_tensor ordering) e3 //.
by rewrite size_ordering_tensor.
Qed.

End OrderingTensor.

(** ** The further properties on the concrete instances *)

Lemma zero_stats_full_step_witness :
  exists p' w' log,
    natural_grad_update ex_call id 1 (zero_stats ex_param) [::]
      = Ok (p', w', log)
    /\ natural_parameters (posterior p') = natural_parameters (prior ex_param).
Proof.
have kc : keeps_callbacks ex_call by [].
have kp : keeps_posterior ex_call by [].
apply: (zero_stats_full_step id [::] kc kp); [by [] | by [] |].
by apply: family_accepts; vm_compute.
Defined.

Lemma zero_lrate_keeps_posterior_witness :
  exists p' w' log,
    natural_grad_update ex_call id 0 ex_param [::] = Ok (p', w', log)
    /\ natural_parameters (posterior p')
       = natural_parameters (posterior ex_param).
Proof.
have kc : keeps_callbacks ex_call by [].
have kp : keeps_posterior ex_call by [].
apply: (zero_lrate_keeps_posterior id [::] kc kp); [by [] | by [] |].
by apply: family_accepts; vm_compute.
Defined.

Lemma natural_gradient_contracts_witness :
  let p := store_stats ex_stats ex_param in
  let target := tadd (natural_parameters (prior p)) (data (stats p)) in
  exists p' w' log,
    natural_grad_update ex_call id (1 / 2) p [::] = Ok (p', w', log)
    /\ tsub target (natural_parameters (posterior p'))
       = tscale (1 - 1 / 2) (tsub target (natural_parameters (posterior p))).
Proof.
have kc : keeps_callbacks ex_call by [].
have kp : keeps_posterior ex_call by [].
apply: (natural_gradient_contracts id [::] kc kp); [by [] | by [] |].
by apply: family_accepts; vm_compute.
Defined.

Lemma registered_callbacks_called_witness :
  let q := register_callback 2%N (register_callback 1%N ex_param) in
  let order := _callbacks q in
  let v : seq rat := [:: 0; - 1; - (1 / 2); 1 / 2] in
  exists d,
    let q1 := set_posterior d q in
    let log := zip order (found ex_call order q1 [::]) in
    [/\ update_from_natural_parameters (posterior q) v = Ok d,
        natural_grad_update ex_call id 1 q [::]
        = Ok (run_callbacks ex_call order q1 [::], log),
        forall cb, count_mem cb order = (cb \in _callbacks q),
        forall cb, calls_of cb log = (cb \in _callbacks q)
      & size log = size (_callbacks q)].
Proof.
have vo : visits_once (id : seq nat -> seq nat) by move=> s; exact: perm_refl.
have kc : keeps_callbacks ex_call by [].
have up : wf (register_callback 2%N (register_callback 1%N ex_param)) by [].
apply: (registered_callbacks_called [::] vo kc up).
  by rewrite new_nparams_same //; congr (Ok _); apply/eqP; vm_compute.
by apply: family_accepts; vm_compute.
Defined.

Lemma natural_grad_update_size_mismatch_witness :
  natural_grad_update ex_call id 1
    (store_stats (mkTensor [:: 1; 1] false) ex_param) [::]
  = Raise (RuntimeError
             "The size of tensor a must match the size of tensor b").
Proof.
by apply: (natural_grad_update_size_mismatch ex_call id 1
             (p := store_stats (mkTensor [:: 1; 1] false) ex_param) [::]).
Defined.

Lemma natural_grad_update_broadcast_witness :
  let p := store_stats (mkTensor [:: 1] false) ex_param in
  exists p' w' log,
    natural_grad_update ex_call id 1 p [::] = Ok (p', w', log)
    /\ natural_parameters (posterior p')
       = tadd (natural_parameters (posterior p))
           (tscale 1
              (tsub (tadd (natural_parameters (prior p))
                          (nseq (size (natural_parameters (prior p))) 1))
                    (natural_parameters (posterior p)))).
Proof.
have kc : keeps_callbacks ex_call by [].
have kp : keeps_posterior ex_call by [].
apply: (natural_grad_update_broadcast id [::] kc kp); [by [] | by [] |].
by apply: family_accepts; vm_compute.
Defined.

Lemma register_callback_commute_witness :
  perm_eq (_callbacks (register_callback 1%N (register_callback 2%N ex_param)))
          (_callbacks (register_callback 2%N (register_callback 1%N ex_param))).
Proof.
have up : wf ex_param by [].
exact: (register_callback_commute 1%N 2%N up).
Defined.

Lemma NormalGamma_natural_round_trip_witness :
  exists2 d', NormalGamma.update_from_natural_parameters ex_prior ex_natural
              = Ok d'
            & NormalGamma.natural_parameters d' = ex_natural.
Proof.
apply: NormalGamma_natural_round_trip; by vm_compute.
Defined.

Lemma from_natural_parameters_shape_witness :
  exists2 p, NormalGamma.from_natural_parameters ex_odd = Ok p
           & size (NormalGamma.mean p) = 0%N
             /\ size (NormalGamma.rates p) = 0%N.
Proof.
have s : (1 < size ex_odd)%N by [].
exact: (from_natural_parameters_shape s).
Defined.

Lemma Joint_round_trip_witness :
  [/\ JointNormalGamma.valid (JointNormalGamma.params ex_joint),
      size (JointNormalGamma.means (JointNormalGamma.params ex_joint0))
      = size (JointNormalGamma.means (JointNormalGamma.params ex_joint))
    & JointNormalGamma.update_from_natural_parameters ex_joint0
        (JointNormalGamma.natural_parameters ex_joint) = Ok ex_joint].
Proof.
have v : JointNormalGamma.valid (JointNormalGamma.params ex_joint).
  by vm_compute.
have e : size (JointNormalGamma.means (JointNormalGamma.params ex_joint0))
         = size (JointNormalGamma.means (JointNormalGamma.params ex_joint)).
  by [].
by split; [exact: v | exact: e | exact: (Joint_round_trip v e)].
Defined.

Lemma Full__quad_approx_taylor_witness :
  let Hess : 'I_2 -> 'M[rat]_2 := GSM.c_hessians ex_cache in
  let delta :=
    row ord0 (GSM.c_opt ex_cache) - GSM.c_m ex_cache
    - row ord0 (GSM.c_H ex_cache *m GSM.c_W ex_cache) in
  (GSM.Full__quad_approx (ex_model full) ex_cache).1 0 ord0
  = GSM.llh (GSM.llh_func (ex_model full)) (GSM.c_opt ex_cache)
            (GSM.c_stats ex_cache) (GSM.c_counts ex_cache) 0 ord0
    + half rat * form (Hess ord0) delta delta.
Proof.
apply: Full__quad_approx_taylor.
- by rewrite /= tr_scalar_mx.
- by [].
- by apply/rowP => x; rewrite !mxE.
- by apply/rowP => x; rewrite !mxE.
Defined.

Lemma forward_values_agree_witness :
  (GSM.Full_expected_log_likelihood (ex_model full) ex_data).1
  = (GSM.Diagonal_expected_log_likelihood (ex_model diagonal) ex_data).1
  /\ (GSM.Diagonal_expected_log_likelihood (ex_model diagonal) ex_data).1
     = (GSM.Scalar_expected_log_likelihood (ex_model scalar) ex_data).1.
Proof.
exact: (forward_values_agree _ _ _ None None None ex_hessians_agree).
Defined.

Lemma reverse_ordering_inverse_witness :
  exists r,
    [/\ SBCategorical.reverse_ordering ex_ordering = Ok r,
        size r = 3%N,
        forall i, (i < 3)%N -> nth 0%N r (nth 0%N ex_ordering i) = i
      & forall j, (j < 3)%N -> nth 0%N ex_ordering (nth 0%N r j) = j].
Proof.
have po : perm_eq ex_ordering (iota 0 (size ex_ordering)) by [].
exact: (reverse_ordering_inverse po).
Defined.

Lemma accumulate_ordering_reversed_witness :
  let stats : 'M[rat]_(2, 3) := const_mx 1 in
  let ordering := (SBCategorical.accumulate (@ex_argsort 3) stats).1 in
  exists r,
    [/\ SBCategorical.reverse_ordering
          (SBCategorical.ordering_tensor ordering) = Ok r,
        size r = 3%N
      & forall j : 'I_3, nth 0%N r (ordering j) = j].
Proof.
have inj : injective (@ex_argsort 3 (SBCategorical.sum_dim0
                                       (const_mx 1 : 'M[rat]_(2, 3)))).
  by move=> a b.
exact: (accumulate_ordering_reversed inj).
Defined.

Lemma stats_always_detached_witness :
  detached (zero_stats (store_stats ex_stats ex_param))
  /\ detached (register_callback 1%N (store_stats ex_stats ex_param)).
Proof.
have [_ st zs rg] := stats_always_detached (NormalGamma.family rat) nat.
have [d _] := st ex_stats ex_param.
by split; [exact: zs d | exact: rg d].
Defined.
